(** * The HLS server of rtsp-simple-server: registry, event loop and HTTP front end

  A shallow embedding of [internal/core/hls_server.go].  Go strings are
  byte strings ([string] over [ascii]); the [remuxers] map is a [gmap]
  keyed by path name; the goroutines that wait on channels are step
  functions over the points at which they block. *)

From Stdlib Require Import ZArith List Ascii String Bool Lia.
From stdpp Require Import base option gmap strings.

Local Open Scope string_scope.

(** ** Go string primitives *)

Module GoStrings.

(** [s[n:]] for [n <= len(s)]; the whole tail is dropped otherwise. *)
Fixpoint drop (n : nat) (s : string) : string :=
  match n, s with
  | O, _ => s
  | S _, EmptyString => EmptyString
  | S n', String _ s' => drop n' s'
  end.

(** [s[:n]] for [n <= len(s)]. *)
Fixpoint take (n : nat) (s : string) : string :=
  match n, s with
  | O, _ => EmptyString
  | S _, EmptyString => EmptyString
  | S n', String c s' => String c (take n' s')
  end.

(** The slice expression [s[i:]].  Go checks [i <= len(s)] at run time
    and panics with "slice bounds out of range" when it fails: [None]. *)
Definition slice_from (s : string) (i : nat) : option string :=
  if (i <=? String.length s)%nat then Some (drop i s) else None.

(** [strings.HasSuffix]:
    [len(s) >= len(suffix) && s[len(s)-len(suffix):] == suffix]. *)
Definition HasSuffix (s suffix : string) : bool :=
  (String.length suffix <=? String.length s)%nat
  && String.eqb (drop (String.length s - String.length suffix) s) suffix.

(** [strings.TrimSuffix]:
    [if HasSuffix(s, suffix) { return s[:len(s)-len(suffix)] }; return s]. *)
Definition TrimSuffix (s suffix : string) : string :=
  if HasSuffix s suffix
  then take (String.length s - String.length suffix) s
  else s.

(** [bytealg.LastIndexByteString]: index of the last [c] in [s], or -1. *)
Fixpoint LastIndexByte (s : string) (c : ascii) : Z :=
  match s with
  | EmptyString => (-1)%Z
  | String a s' =>
      let i := LastIndexByte s' c in
      if (0 <=? i)%Z then (i + 1)%Z
      else if Ascii.eqb a c then 0%Z else (-1)%Z
  end.

(** [s[i]] for an index in range (the zero byte stands in otherwise; the
    callers below only index in range). *)
Definition index (s : string) (i : nat) : ascii :=
  match String.get i s with Some c => c | None => Ascii.zero end.

End GoStrings.

(** ** Go's [path] package: [Clean], [Split], [Dir], [Base] *)

Module gopath.
Import GoStrings.

Definition slash : ascii := "/"%char.
Definition dot : ascii := "."%char.

(** [Split]: [i := LastIndexByte(path, '/'); return path[:i+1], path[i+1:]]. *)
Definition Split (path : string) : string * string :=
  let i := LastIndexByte path slash in
  (take (Z.to_nat (i + 1)) path, drop (Z.to_nat (i + 1)) path).

(** The [..] case of [Clean] when it can backtrack:
    [out.w--; for out.w > dotdot && out.index(out.w) != '/' { out.w-- }].
    [backtrack out dotdot w] runs the [for] loop from write index [w]. *)
Fixpoint backtrack (out : string) (dotdot w : nat) : nat :=
  match w with
  | O => O
  | S w' =>
      if (dotdot <? w)%nat && negb (Ascii.eqb (index out w) slash)
      then backtrack out dotdot w'
      else w
  end.

(** [out.append(c)]: the buffer is the string written so far, [out.w]
    is its length. *)
Definition append (out : string) (c : ascii) : string :=
  out ++ String c EmptyString.

(** The main loop of [Clean], reading the unread part [rest] of the path.
    [inElem] is set while the inner loop
    [for ; r < n && path[r] != '/'; r++ { out.append(path[r]) }]
    of the "real path element" case is running. *)
Fixpoint cleanLoop (rooted : bool) (rest : string) (inElem : bool)
    (out : string) (dotdot : nat) : string :=
  match rest with
  | EmptyString => out
  | String c tl =>
      if inElem then
        if Ascii.eqb c slash
        then cleanLoop rooted tl false out dotdot
        else cleanLoop rooted tl true (append out c) dotdot
      else if Ascii.eqb c slash then
        (* empty path element *)
        cleanLoop rooted tl false out dotdot
      else
        let w := String.length out in
        let element :=
          let out' :=
            if (rooted && negb (w =? 1)%nat) || (negb rooted && negb (w =? 0)%nat)
            then append out slash else out in
          cleanLoop rooted tl true (append out' c) dotdot in
        if Ascii.eqb c dot then
          match tl with
          | EmptyString => (* . element *) cleanLoop rooted tl false out dotdot
          | String c1 tl1 =>
              if Ascii.eqb c1 slash then
                (* . element *) cleanLoop rooted tl false out dotdot
              else if Ascii.eqb c1 dot
                      && match tl1 with
                         | EmptyString => true
                         | String c2 _ => Ascii.eqb c2 slash
                         end
              then
                (* .. element: remove to last / *)
                if (dotdot <? w)%nat then
                  cleanLoop rooted tl1 false
                    (take (backtrack out dotdot (w - 1)) out) dotdot
                else if negb rooted then
                  let out1 := if (0 <? w)%nat then append out slash else out in
                  let out2 := append (append out1 dot) dot in
                  cleanLoop rooted tl1 false out2 (String.length out2)
                else cleanLoop rooted tl1 false out dotdot
              else element
          end
        else element
  end.

(** [Clean]. *)
Definition Clean (path : string) : string :=
  match path with
  | EmptyString => "."
  | String c0 tl =>
      let rooted := Ascii.eqb c0 slash in
      let out :=
        if rooted
        then cleanLoop true tl false "/" 1
        else cleanLoop false path false "" 0 in
      if (String.length out =? 0)%nat then "." else out
  end.

(** [Dir]: [dir, _ := Split(path); return Clean(dir)]. *)
Definition Dir (path : string) : string := Clean (fst (Split path)).

(** The loop of [Base] that strips trailing slashes:
    [for len(path) > 0 && path[len(path)-1] == '/' { path = path[0 : len(path)-1] }]. *)
Fixpoint stripTrailingSlashes (path : string) : string :=
  match path with
  | EmptyString => EmptyString
  | String c p' =>
      match stripTrailingSlashes p' with
      | EmptyString => if Ascii.eqb c slash then EmptyString else String c EmptyString
      | t => String c t
      end
  end.

(** [Base]. *)
Definition Base (path : string) : string :=
  if String.eqb path "" then "." else
  let path := stripTrailingSlashes path in
  let i := LastIndexByte path slash in
  let path := if (0 <=? i)%Z then drop (Z.to_nat (i + 1)) path else path in
  if String.eqb path "" then "/" else path.

End gopath.

(** ** The server: data *)

Module core.
Import GoStrings.

(** An [*http.Request], as far as [ServeHTTP] reads it.  [Header] is Go's
    [map[string][]string]. *)
Record httpRequest := {
  RemoteAddr : string;
  Method : string;
  URLPath : string;
  Header : gmap string (list string)
}.

(** [http.Header.Get]: the first value stored under the key, or [""]. *)
Definition Header_Get (h : gmap string (list string)) (key : string) : string :=
  match h !! key with
  | Some (v :: _) => v
  | _ => ""
  end.

(** Channels, readers and response writers are reference values; each is
    known by its identity. *)
Definition chan := nat.
Definition ioReader := nat.
Definition responseWriter := nat.

(** [hlsRemuxerRequest], built by [ServeHTTP] and forwarded to a remuxer. *)
Record hlsRemuxerRequest := {
  Dir : string;
  File : string;
  Req : httpRequest;
  W : responseWriter;
  Res : chan
}.

(** A [*hlsRemuxer].  [rid] is the identity of the allocation; the other
    fields are what [newHLSRemuxer] was given and never change, so two
    handles are the same pointer exactly when the records are equal. *)
Record hlsRemuxer := {
  rid : nat;
  rAlwaysRemux : bool;
  rSegmentCount : Z;
  rSegmentDuration : Z;
  rReadBufferCount : Z;
  rPathName : string
}.

#[global] Instance hlsRemuxer_eq_dec : EqDecision hlsRemuxer.
Proof. solve_decision. Defined.

(** [c.PathName()]. *)
Definition PathName (c : hlsRemuxer) : string := rPathName c.

(** A [*path] handed over by the path manager; [pa.Name()]. *)
Record path := { Name : string }.

(** The fields of [hlsServer] that the event loop and the handler read,
    and the [remuxers] map that the loop owns. *)
Record hlsServer := {
  hlsAlwaysRemux : bool;
  hlsSegmentCount : Z;
  hlsSegmentDuration : Z;
  hlsAllowOrigin : string;
  readBufferCount : Z;
  remuxers : gmap string hlsRemuxer
}.

Definition set_remuxers (s : hlsServer) (m : gmap string hlsRemuxer) : hlsServer :=
  {| hlsAlwaysRemux := hlsAlwaysRemux s;
     hlsSegmentCount := hlsSegmentCount s;
     hlsSegmentDuration := hlsSegmentDuration s;
     hlsAllowOrigin := hlsAllowOrigin s;
     readBufferCount := readBufferCount s;
     remuxers := m |}.

(** [newHLSServer]: the configuration as given, [remuxers] made empty. *)
Definition newHLSServer (alwaysRemux : bool) (segmentCount segmentDuration : Z)
    (allowOrigin : string) (bufferCount : Z) : hlsServer :=
  {| hlsAlwaysRemux := alwaysRemux;
     hlsSegmentCount := segmentCount;
     hlsSegmentDuration := segmentDuration;
     hlsAllowOrigin := allowOrigin;
     readBufferCount := bufferCount;
     remuxers := ∅ |}.

(** ** The event loop ([run]) *)

(** What the loop goroutine has done so far, next to the server it owns:
    [created] lists every remuxer made by [newHLSRemuxer] (newest first),
    [forwarded] every [r.OnRequest(req)] call, [closed] every remuxer
    whose closure notification the loop has received, and [exited] is set
    once the loop has left [for { select ... }]. *)
Record loopState := {
  srv : hlsServer;
  created : list hlsRemuxer;
  forwarded : list (hlsRemuxer * hlsRemuxerRequest);
  closed : list hlsRemuxer;
  exited : bool
}.

Definition startLoop (s : hlsServer) : loopState :=
  {| srv := s; created := []; forwarded := []; closed := []; exited := false |}.

(** Modelled from the spec: [newHLSRemuxer] is defined in hls_remuxer.go.
    It constructs a new worker bound to the path name and to the shared
    configuration it is given, and returns a pointer to it.  A fresh
    allocation differs from every earlier one: its [rid] is the number of
    remuxers allocated before it. *)
Definition newHLSRemuxer (allocated : list hlsRemuxer) (alwaysRemux : bool)
    (segmentCount segmentDuration bufferCount : Z) (pathName : string) : hlsRemuxer :=
  {| rid := List.length allocated;
     rAlwaysRemux := alwaysRemux;
     rSegmentCount := segmentCount;
     rSegmentDuration := segmentDuration;
     rReadBufferCount := bufferCount;
     rPathName := pathName |}.

(** [findOrCreateRemuxer]. *)
Definition findOrCreateRemuxer (pathName : string) (st : loopState)
    : hlsRemuxer * loopState :=
  let s := srv st in
  match remuxers s !! pathName with
  | Some r => (r, st)
  | None =>
      let r := newHLSRemuxer (created st) (hlsAlwaysRemux s) (hlsSegmentCount s)
                 (hlsSegmentDuration s) (readBufferCount s) pathName in
      (r, {| srv := set_remuxers s (<[pathName := r]> (remuxers s));
             created := r :: created st;
             forwarded := forwarded st;
             closed := closed st;
             exited := exited st |})
  end.

(** The four cases of the [select] in [run]. *)
Inductive event :=
| PathSourceReady (pa : path)
| Request (req : hlsRemuxerRequest)
| RemuxerClose (c : hlsRemuxer)
| CtxDone.

(** One iteration of [for { select { ... } }]. *)
Definition run_step (st : loopState) (ev : event) : loopState :=
  match ev with
  | PathSourceReady pa =>
      if hlsAlwaysRemux (srv st)
      then snd (findOrCreateRemuxer (Name pa) st)
      else st
  | Request req =>
      let '(r, st') := findOrCreateRemuxer (Dir req) st in
      {| srv := srv st';
         created := created st';
         forwarded := (r, req) :: forwarded st';
         closed := closed st';
         exited := exited st' |}
  | RemuxerClose c =>
      let st' := {| srv := srv st;
                    created := created st;
                    forwarded := forwarded st;
                    closed := c :: closed st;
                    exited := exited st |} in
      match remuxers (srv st) !! PathName c with
      | Some c2 =>
          if decide (c2 = c)
          then {| srv := set_remuxers (srv st) (delete (PathName c) (remuxers (srv st)));
                  created := created st;
                  forwarded := forwarded st;
                  closed := c :: closed st;
                  exited := exited st |}
          else st'
      | None => st'
      end
  | CtxDone =>
      {| srv := srv st;
         created := created st;
         forwarded := forwarded st;
         closed := closed st;
         exited := true |}
  end.

(** The loop over the events in the order in which the [select] takes
    them; after [break outer] nothing more is received. *)
Fixpoint run (st : loopState) (evs : list event) : loopState :=
  match evs with
  | [] => st
  | ev :: evs' => if exited st then st else run (run_step st ev) evs'
  end.

(** A remuxer is live when the loop has created it and has not yet
    received its closure notification. *)
Definition live (st : loopState) (c : hlsRemuxer) : Prop :=
  c ∈ created st ∧ c ∉ closed st.

(** ** The HTTP handler ([ServeHTTP]) *)

(** What a handler goroutine does, in program order: the calls it makes on
    the response writer [w] and on the reader [res], and the channel
    operations it completes. *)
Inductive action :=
| HeaderAdd (key value : string)     (* w.Header().Add(key, value) *)
| WriteHeader (code : nat)           (* w.WriteHeader(code) *)
| Send (hreq : hlsRemuxerRequest)    (* s.request <- hreq *)
| Recv (cres : chan)                 (* <-cres *)
| Read (res : ioReader)              (* res.Read(buf) *)
| Write (p : list Byte.byte)         (* w.Write(p) *)
| Flush.                             (* w.(http.Flusher).Flush() *)

Definition StatusOK : nat := 200.
Definition StatusMovedPermanently : nat := 301.
Definition StatusNotFound : nat := 404.
Definition MethodGet : string := "GET".
Definition MethodOptions : string := "OPTIONS".

(** Where a handler goroutine stands: blocked in the [select] that offers
    [hreq] to the loop, blocked in the receive from [cres], inside
    [res.Read(buf)], inside [w.Write(buf[:n])], returned, or stopped by a
    run-time panic. *)
Inductive handler :=
| Selecting (hreq : hlsRemuxerRequest)
| Receiving (cres : chan)
| Reading (res : ioReader) (buf : list Byte.byte)
| Writing (res : ioReader) (buf : list Byte.byte) (n : nat)
| Returned
| Panicked.

(** The two headers added to every response (lines 140-141). *)
Definition corsHeaders (s : hlsServer) : list action :=
  [ HeaderAdd "Access-Control-Allow-Origin" (hlsAllowOrigin s);
    HeaderAdd "Access-Control-Allow-Credentials" "true" ].

(** The closure of lines 163-168 that splits [pa] into [dir] and [fname]. *)
Definition splitPath (pa : string) : string * string :=
  if HasSuffix pa ".ts" || HasSuffix pa ".m3u8"
  then (gopath.Dir pa, gopath.Base pa)
  else (pa, "").

(** [ServeHTTP], up to the first point at which it blocks or returns.
    [cres] is the channel made by [make(chan io.Reader)].  (The [s.Log]
    call of line 135 has no part in what follows and is left out.) *)
Definition ServeHTTP (s : hlsServer) (w : responseWriter) (r : httpRequest)
    (cres : chan) : handler * list action :=
  (* remove leading prefix *)
  match slice_from (URLPath r) 1 with
  | None => (Panicked, [])
  | Some pa =>
      let hdr := corsHeaders s in
      if String.eqb (Method r) MethodGet then
        if String.eqb pa "" || String.eqb pa "favicon.ico" then
          (Returned, (hdr ++ [WriteHeader StatusNotFound])%list)
        else
          let '(dir, fname) := splitPath pa in
          if String.eqb fname "" && negb (HasSuffix dir "/") then
            (Returned,
             (hdr ++ [HeaderAdd "Location" ("/" ++ dir ++ "/");
                      WriteHeader StatusMovedPermanently])%list)
          else
            let dir := TrimSuffix dir "/" in
            let hreq := {| Dir := dir; File := fname; Req := r; W := w; Res := cres |} in
            (Selecting hreq, hdr)
      else if String.eqb (Method r) MethodOptions then
        (Returned,
         (hdr ++ [HeaderAdd "Access-Control-Allow-Methods" "GET, OPTIONS";
                  HeaderAdd "Access-Control-Allow-Headers"
                    (Header_Get (Header r) "Access-Control-Request-Headers");
                  WriteHeader StatusOK])%list)
      else
        (Returned, (hdr ++ [WriteHeader StatusNotFound])%list)
  end.

(** What wakes a blocked goroutine up: the loop took the value offered on
    a channel; [s.ctx.Done()] was closed; a value arrived on [cres] ([None]
    is the nil reader); [Read] stored [data] at the start of [buf] and
    returned [n = len(data)] and an error or none; [Write] returned an error
    or none. *)
Inductive wakeup :=
| Sent
| Done
| Reply (res : option ioReader)
| ReadResult (data : list Byte.byte) (err : bool)
| WriteResult (err : bool).

(** [make([]byte, 4096)]. *)
Definition bufSize : nat := 4096.
Definition makeBuf : list Byte.byte := repeat Byte.x00 bufSize.

(** One step of the handler from a blocked state (lines 187-209).  A
    wake-up that the state does not wait for leaves it blocked: [None].
    A reader stores at most [len(buf)] bytes. *)
Definition step (h : handler) (i : wakeup) : option (handler * list action) :=
  match h, i with
  | Selecting hreq, Sent => Some (Receiving (Res hreq), [Send hreq])
  | Selecting hreq, Done => Some (Returned, [])
  | Receiving cres, Reply None => Some (Returned, [Recv cres])
  | Receiving cres, Reply (Some res) => Some (Reading res makeBuf, [Recv cres])
  | Reading res buf, ReadResult data err =>
      let n := List.length data in
      if (n <=? List.length buf)%nat then
        if err then Some (Returned, [Read res])
        else Some (Writing res (data ++ skipn n buf)%list n, [Read res])
      else None
  | Writing res buf n, WriteResult err =>
      if err then Some (Returned, [Write (firstn n buf)])
      else Some (Reading res buf, [Write (firstn n buf); Flush])
  | _, _ => None
  end.

(** The handler driven through a sequence of wake-ups. *)
Fixpoint resume (h : handler) (ins : list wakeup) : option (handler * list action) :=
  match ins with
  | [] => Some (h, [])
  | i :: ins' =>
      match step h i with
      | None => None
      | Some (h', acts) =>
          match resume h' ins' with
          | None => None
          | Some (h'', acts') => Some (h'', (acts ++ acts')%list)
          end
      end
  end.

(** ** The callbacks [OnRemuxerClose] and [OnPathSourceReady] *)

(** Both are one [select] between a send to the loop and [s.ctx.Done()]. *)
Inductive notifier :=
| ClosingRemuxer (c : hlsRemuxer)      (* select { case s.remuxerClose <- c: ... } *)
| AnnouncingSource (pa : path)         (* select { case s.pathSourceReady <- pa: ... } *)
| NotifierReturned.

Definition OnRemuxerClose (c : hlsRemuxer) : notifier := ClosingRemuxer c.
Definition OnPathSourceReady (pa : path) : notifier := AnnouncingSource pa.

(** A step of a callback; a completed send hands the loop its event. *)
Definition notifier_step (n : notifier) (i : wakeup) : option (notifier * list event) :=
  match n, i with
  | ClosingRemuxer c, Sent => Some (NotifierReturned, [RemuxerClose c])
  | ClosingRemuxer c, Done => Some (NotifierReturned, [])
  | AnnouncingSource pa, Sent => Some (NotifierReturned, [PathSourceReady pa])
  | AnnouncingSource pa, Done => Some (NotifierReturned, [])
  | _, _ => None
  end.

(** The blocking waits that cross the registry boundary. *)
Inductive registryWait :=
| SubmitRequest (hreq : hlsRemuxerRequest)
| AwaitReply (cres : chan)
| SubmitSourceReady (pa : path)
| SubmitRemuxerClose (c : hlsRemuxer).

(** Whether a goroutine blocked in the wait is released when [s.ctx.Done()]
    is closed. *)
Definition wakesOnDone (wt : registryWait) : bool :=
  match wt with
  | SubmitRequest hreq => bool_decide (is_Some (step (Selecting hreq) Done))
  | AwaitReply cres => bool_decide (is_Some (step (Receiving cres) Done))
  | SubmitSourceReady pa => bool_decide (is_Some (notifier_step (OnPathSourceReady pa) Done))
  | SubmitRemuxerClose c => bool_decide (is_Some (notifier_step (OnRemuxerClose c) Done))
  end.

(** ** Shutdown: [close], the goroutine of [run] and the wait group *)

(** Where the goroutine of [run] stands: before [go hs.Serve(s.ln)], in
    the [for { select }] loop, and then before each of the statements that
    follow [break outer], the last being the deferred [s.wg.Done()]. *)
Inductive runPhase :=
| Starting
| InLoop
| AfterLoop        (* next: s.ctxCancel() *)
| ShuttingDown     (* next: hs.Shutdown(context.Background()) *)
| Deregistering    (* next: s.pathManager.OnHLSServerSet(nil) *)
| Deferred         (* next: s.wg.Done() *)
| Exited.

(** Where a call of [close] stands: before [s.ctxCancel()], in
    [s.wg.Wait()], or returned. *)
Inductive closePhase :=
| AtCancel
| AtWait
| CloseReturned.

#[global] Instance runPhase_eq_dec : EqDecision runPhase.
Proof. solve_decision. Defined.

#[global] Instance closePhase_eq_dec : EqDecision closePhase.
Proof. solve_decision. Defined.

(** The server and the goroutines around it. *)
Record system := {
  loop : loopState;              (* what the loop goroutine owns *)
  phase : runPhase;
  cancelled : bool;              (* s.ctx is done *)
  wg : nat;                      (* the counter of s.wg *)
  finished : list hlsRemuxer;    (* remuxers whose goroutine has ended *)
  serving : bool;                (* hs.Serve has been started *)
  transportDown : bool;          (* hs.Shutdown has returned *)
  hlsServerSet : bool;           (* the path manager holds this server *)
  closers : list closePhase      (* the calls of close(), in call order *)
}.

(** [newHLSServer] after a successful [net.Listen]: the context is live,
    [OnHLSServerSet(s)] has been called, and [s.wg.Add(1)] precedes
    [go s.run()]. *)
Definition startSystem (s : hlsServer) : system :=
  {| loop := startLoop s;
     phase := Starting;
     cancelled := false;
     wg := 1;
     finished := [];
     serving := false;
     transportDown := false;
     hlsServerSet := true;
     closers := [] |}.

(** The moves of the system; goroutines interleave. *)
Inductive transition :=
| LoopReceives (ev : event)        (* the select of run takes one of its cases *)
| RunAdvances                      (* run executes its next statement outside the loop *)
| WorkerFinishes (c : hlsRemuxer)  (* the goroutine of remuxer c ends *)
| CloseCalled                      (* a goroutine enters close() *)
| CloseAdvances (k : nat).         (* the k-th call of close() moves on *)

(** Modelled from the spec: the body of a remuxer (hls_remuxer.go) is a
    unit of work registered in the wait group it is given ([&s.wg]):
    [newHLSRemuxer] adds one to the counter before the remuxer starts
    ([wg.Add(1)]), once for each remuxer that a loop iteration creates. *)
Definition workersAdded (before after : loopState) : nat :=
  List.length (created after) - List.length (created before).

(** Modelled from the spec: a remuxer that the loop has created and that
    has not finished yet ends its goroutine and takes its unit off the
    wait group ([wg.Done()]). *)
Definition workerDone (st : system) (c : hlsRemuxer) : option system :=
  if bool_decide (c ∈ created (loop st)) && bool_decide (c ∉ finished st)
     && (0 <? wg st)%nat
  then Some {| loop := loop st; phase := phase st; cancelled := cancelled st;
               wg := wg st - 1; finished := c :: finished st;
               serving := serving st; transportDown := transportDown st;
               hlsServerSet := hlsServerSet st; closers := closers st |}
  else None.

(** The statements of [run] outside the loop, one at a time. *)
Definition run_advance (st : system) : option system :=
  match phase st with
  | Starting =>
      Some {| loop := loop st; phase := InLoop; cancelled := cancelled st;
              wg := wg st; finished := finished st;
              serving := true; transportDown := transportDown st;
              hlsServerSet := hlsServerSet st; closers := closers st |}
  | InLoop => None
  | AfterLoop =>
      Some {| loop := loop st; phase := ShuttingDown; cancelled := true;
              wg := wg st; finished := finished st;
              serving := serving st; transportDown := transportDown st;
              hlsServerSet := hlsServerSet st; closers := closers st |}
  | ShuttingDown =>
      Some {| loop := loop st; phase := Deregistering; cancelled := cancelled st;
              wg := wg st; finished := finished st;
              serving := serving st; transportDown := true;
              hlsServerSet := hlsServerSet st; closers := closers st |}
  | Deregistering =>
      Some {| loop := loop st; phase := Deferred; cancelled := cancelled st;
              wg := wg st; finished := finished st;
              serving := serving st; transportDown := transportDown st;
              hlsServerSet := false; closers := closers st |}
  | Deferred =>
      if (0 <? wg st)%nat then
        Some {| loop := loop st; phase := Exited; cancelled := cancelled st;
                wg := wg st - 1; finished := finished st;
                serving := serving st; transportDown := transportDown st;
                hlsServerSet := hlsServerSet st; closers := closers st |}
      else None
  | Exited => None
  end.

(** The [select] of [run]: the [<-s.ctx.Done()] case can be taken only once
    the context is done; it leaves the loop. *)
Definition loop_receive (st : system) (ev : event) : option system :=
  match phase st with
  | InLoop =>
      match ev with
      | CtxDone =>
          if cancelled st then
            Some {| loop := run_step (loop st) CtxDone; phase := AfterLoop;
                    cancelled := cancelled st; wg := wg st; finished := finished st;
                    serving := serving st; transportDown := transportDown st;
                    hlsServerSet := hlsServerSet st; closers := closers st |}
          else None
      | _ =>
          let l' := run_step (loop st) ev in
          Some {| loop := l'; phase := InLoop; cancelled := cancelled st;
                  wg := wg st + workersAdded (loop st) l'; finished := finished st;
                  serving := serving st; transportDown := transportDown st;
                  hlsServerSet := hlsServerSet st; closers := closers st |}
      end
  | _ => None
  end.

Definition set_closers (st : system) (cancel : bool) (cl : list closePhase) : system :=
  {| loop := loop st; phase := phase st; cancelled := cancel;
     wg := wg st; finished := finished st;
     serving := serving st; transportDown := transportDown st;
     hlsServerSet := hlsServerSet st; closers := cl |}.

(** [close]: [s.ctxCancel()], then [s.wg.Wait()], which returns only when
    the counter is zero. *)
Definition close_advance (st : system) (k : nat) : option system :=
  match closers st !! k with
  | Some AtCancel => Some (set_closers st true (<[k := AtWait]> (closers st)))
  | Some AtWait =>
      if (wg st =? 0)%nat
      then Some (set_closers st (cancelled st) (<[k := CloseReturned]> (closers st)))
      else None
  | _ => None
  end.

(** A move that is not enabled gives [None]. *)
Definition sys_step (st : system) (t : transition) : option system :=
  match t with
  | LoopReceives ev => loop_receive st ev
  | RunAdvances => run_advance st
  | WorkerFinishes c => workerDone st c
  | CloseCalled => Some (set_closers st (cancelled st) (closers st ++ [AtCancel]))
  | CloseAdvances k => close_advance st k
  end.

Fixpoint sys_run (st : system) (ts : list transition) : option system :=
  match ts with
  | [] => Some st
  | t :: ts' =>
      match sys_step st t with
      | Some st' => sys_run st' ts'
      | None => None
      end
  end.

(** ** What a trace of actions shows to the client *)

(** The status codes passed to [WriteHeader], and the slices passed to
    [Write], in call order. *)
Definition statusCalls (acts : list action) : list nat :=
  flat_map (fun a => match a with WriteHeader code => [code] | _ => [] end) acts.

Definition writeCalls (acts : list action) : list (list Byte.byte) :=
  flat_map (fun a => match a with Write p => [p] | _ => [] end) acts.

(** The requests offered to the loop. *)
Definition sendCalls (acts : list action) : list hlsRemuxerRequest :=
  flat_map (fun a => match a with Send hreq => [hreq] | _ => [] end) acts.

(** The handler has not reached the registry: it has returned without
    building a request message or sending one. *)
Definition bypassesRegistry (res : handler * list action) : Prop :=
  fst res = Returned ∧ sendCalls (snd res) = [].

(** A reader that delivers [chunks] one [Read] at a time to a client that
    accepts every [Write], and what the handler does with them. *)
Definition served (chunks : list (list Byte.byte)) : list wakeup :=
  flat_map (fun d => [ReadResult d false; WriteResult false]) chunks.

Definition copied (res : ioReader) (chunks : list (list Byte.byte)) : list action :=
  flat_map (fun d => [Read res; Write d; Flush]) chunks.

(** ** Invariants *)

(** What holds of the loop state however the loop got there. *)
Record loop_inv (st : loopState) : Prop := {
  (* every remuxer was allocated once, after all the earlier ones *)
  inv_nodup : NoDup (created st);
  inv_rid : forall c, c ∈ created st -> rid c < List.length (created st);
  (* an entry of the map is a created remuxer, filed under its own name *)
  inv_entry : forall name c,
    remuxers (srv st) !! name = Some c -> PathName c = name /\ c ∈ created st;
  (* a live remuxer is the entry for its name *)
  inv_live : forall c, live st c -> remuxers (srv st) !! PathName c = Some c;
  (* a request went to a created remuxer of the requested name *)
  inv_forwarded : forall r req,
    (r, req) ∈ forwarded st -> PathName r = Dir req /\ r ∈ created st
}.

(** What holds of the system however it got there.  The counter of the
    wait group counts the goroutine of [run], until it has exited, and the
    remuxers that have not finished. *)
Record sys_inv (st : system) : Prop := {
  si_loop : loop_inv (loop st);
  si_fin_nodup : NoDup (finished st);
  si_fin_sub : forall c, c ∈ finished st -> c ∈ created (loop st);
  si_wg : wg st + List.length (finished st)
          = (if decide (phase st = Exited) then 0 else 1)
            + List.length (created (loop st));
  si_cancel : phase st <> Starting -> phase st <> InLoop -> cancelled st = true;
  si_down : phase st = Deregistering \/ phase st = Deferred \/ phase st = Exited ->
            transportDown st = true;
  si_unset : phase st = Deferred \/ phase st = Exited -> hlsServerSet st = false;
  si_waiting : forall k p, closers st !! k = Some p -> p <> AtCancel ->
               cancelled st = true;
  si_returned : forall k, closers st !! k = Some CloseReturned -> wg st = 0
}.

(** ** Sample values *)

Definition sampleServer : hlsServer := newHLSServer false 3 1 "*" 512.

Definition sampleGet (urlPath : string) : httpRequest :=
  {| RemoteAddr := "192.0.2.1:4000"; Method := "GET"; URLPath := urlPath; Header := ∅ |}.

Definition sampleRequest (dir file urlPath : string) : hlsRemuxerRequest :=
  {| Dir := dir; File := file; Req := sampleGet urlPath; W := 0; Res := 7 |}.

(** The first and the second remuxer that [sampleServer] makes for a name. *)
Definition sampleRemuxer (n : nat) (name : string) : hlsRemuxer :=
  {| rid := n; rAlwaysRemux := false; rSegmentCount := 3; rSegmentDuration := 1;
     rReadBufferCount := 512; rPathName := name |}.

(** Two requests for [cam1] with a source-ready event between them. *)
Definition sampleEvents : list event :=
  [ Request (sampleRequest "cam1" "index.m3u8" "/cam1/index.m3u8");
    PathSourceReady {| Name := "cam1" |};
    Request (sampleRequest "cam1" "seg0.ts" "/cam1/seg0.ts") ].

(** A remuxer for [x] is created, closes and is replaced by a second one. *)
Definition sampleReplaced : list event :=
  [ Request (sampleRequest "x" "index.m3u8" "/x/index.m3u8");
    RemuxerClose (sampleRemuxer 0 "x");
    Request (sampleRequest "x" "index.m3u8" "/x/index.m3u8") ].

(** A server that handles one request for [x] and is then closed: the call
    of [close] returns after [run] and the remuxer have ended. *)
Definition sampleShutdown : list transition :=
  [ RunAdvances;
    LoopReceives (Request (sampleRequest "x" "index.m3u8" "/x/index.m3u8"));
    CloseCalled;
    CloseAdvances 0;
    LoopReceives CtxDone;
    RunAdvances; RunAdvances; RunAdvances;
    WorkerFinishes (sampleRemuxer 0 "x");
    RunAdvances;
    CloseAdvances 0 ].

Definition sampleClosed : system :=
  default (startSystem sampleServer)
          (sys_run (startSystem sampleServer) sampleShutdown).

(** ** Notions for the properties of the loop *)

(** The path name that an event is about. *)
Definition eventName (ev : event) : option string :=
  match ev with
  | PathSourceReady pa => Some (Name pa)
  | Request req => Some (Dir req)
  | RemuxerClose c => Some (PathName c)
  | CtxDone => None
  end.

(** The requests among the events that the loop takes before it leaves. *)
Fixpoint requestsTaken (evs : list event) : list hlsRemuxerRequest :=
  match evs with
  | [] => []
  | Request req :: evs' => req :: requestsTaken evs'
  | CtxDone :: _ => []
  | _ :: evs' => requestsTaken evs'
  end.

(** The number of events, before the loop leaves, that call
    [findOrCreateRemuxer]. *)
Fixpoint lookupsTaken (alwaysRemux : bool) (evs : list event) : nat :=
  match evs with
  | [] => 0
  | Request _ :: evs' => S (lookupsTaken alwaysRemux evs')
  | PathSourceReady _ :: evs' =>
      (if alwaysRemux then 1 else 0) + lookupsTaken alwaysRemux evs'
  | CtxDone :: _ => 0
  | RemuxerClose _ :: evs' => lookupsTaken alwaysRemux evs'
  end.

(** Closure notifications come from remuxers: every [RemuxerClose c] that
    the loop takes carries a remuxer that the loop has created. *)
Fixpoint closuresFromCreated (st : loopState) (evs : list event) : Prop :=
  match evs with
  | [] => True
  | ev :: evs' =>
      exited st = true \/
      (match ev with RemuxerClose c => c ∈ created st | _ => True end
       /\ closuresFromCreated (run_step st ev) evs')
  end.


(** When the server does not always remux, a remuxer exists only because a
    request asked for its name. *)
Definition lazily_created (st : loopState) : Prop :=
  hlsAlwaysRemux (srv st) = false /\
  forall c, c ∈ created st ->
    exists req, (c, req) ∈ forwarded st /\ Dir req = PathName c.

(** What holds in addition when closure notifications come from created
    remuxers only: the closed remuxers are created ones, and no entry of the
    map is closed. *)
Definition closed_inv (st : loopState) : Prop :=
  (forall c, c ∈ closed st -> c ∈ created st) /\
  (forall name c, remuxers (srv st) !! name = Some c -> c ∉ closed st).

(** ** Notions for the properties of the handler *)

(** The data of the [Read] calls that returned no error, in call order. *)
Definition readData (ins : list wakeup) : list (list Byte.byte) :=
  flat_map (fun i => match i with ReadResult d false => [d] | _ => [] end) ins.

(** The slice that a handler inside [w.Write(buf[:n])] is writing. *)
Definition pendingWrite (h : handler) : list (list Byte.byte) :=
  match h with
  | Writing _ buf n => [firstn n buf]
  | _ => []
  end.

(** Every [Write] is followed at once by a [Flush], unless it is the last
    action, and there is no other [Flush]. *)
Fixpoint flushedAfterWrite (acts : list action) : bool :=
  match acts with
  | [] => true
  | Write _ :: rest =>
      match rest with
      | [] => true
      | Flush :: rest' => flushedAfterWrite rest'
      | _ => false
      end
  | Flush :: _ => false
  | _ :: rest => flushedAfterWrite rest
  end.

(** The buffer of the copy loop keeps the size it was made with, and the
    count returned by [Read] does not exceed it. *)
Definition handler_ok (h : handler) : Prop :=
  match h with
  | Reading _ buf => List.length buf = bufSize
  | Writing _ buf n => List.length buf = bufSize /\ n <= bufSize
  | _ => True
  end.

(** ** Notions for the properties of path handling *)

(** The last byte of a string. *)
Fixpoint lastChar (s : string) : option ascii :=
  match s with
  | EmptyString => None
  | String c EmptyString => Some c
  | String _ s' => lastChar s'
  end.

(** Whether the byte [c] occurs in [s]. *)
Fixpoint hasByte (c : ascii) (s : string) : bool :=
  match s with
  | EmptyString => false
  | String a s' => Ascii.eqb a c || hasByte c s'
  end.

(** What follows the last slash of a path, the whole path when it has
    none: the expression of [Base] that finds the last element. *)
Definition lastElement (path : string) : string :=
  let i := LastIndexByte path gopath.slash in
  if (0 <=? i)%Z then drop (Z.to_nat (i + 1)) path else path.

(** A path element that [Clean] keeps as it is: not empty, without a
    slash, and neither [.] nor [..]. *)
Definition plainElement (e : string) : bool :=
  negb (String.eqb e "") && negb (hasByte gopath.slash e)
  && negb (String.eqb e ".") && negb (String.eqb e "..").

(** Elements joined by slashes, as in [a/b/c]. *)
Fixpoint joinElements (es : list string) : string :=
  match es with
  | [] => ""
  | [e] => e
  | e :: es' => e ++ "/" ++ joinElements es'
  end.




(** ** Notions for the properties of shutdown *)





End core.
Example Base_ex : map gopath.Base ["" ; "."; "/."; "/"; "////"; "x/"; "abc"; "abc/def"; "a/b/.x"; "a/b/c."; "a/b/c.x"]
 = ["."; "."; "."; "/"; "/"; "x"; "abc"; "def"; ".x"; "c."; "c.x"].
Proof. reflexivity. Qed.

Example Dir_ex : map gopath.Dir ["" ; "."; "/."; "/"; "////"; "/foo"; "x/"; "abc"; "abc/def"; "abc////def"; "a/b/.x"; "a/b/c."; "a/b/c.x"]
 = ["."; "."; "/"; "/"; "/"; "/"; "x"; "."; "abc"; "abc"; "a/b"; "a/b"; "a/b"].
Proof. reflexivity. Qed.

Example Clean_ex : map gopath.Clean
  [""; "abc"; "abc/def"; "a/b/c"; "."; ".."; "../.."; "../../abc"; "/abc"; "/";
   "abc/"; "abc/def/"; "a/b/c/"; "./"; "../"; "../../"; "/abc/";
   "abc//def//ghi"; "//abc"; "///abc"; "//abc//"; "abc//";
   "abc/./def"; "/./abc/def"; "abc/.";
   "abc/def/ghi/../jkl"; "abc/def/../ghi/../jkl"; "abc/def/.."; "abc/def/../.."; "/abc/def/../.."; "abc/def/../../.."; "/abc/def/../../.."; "abc/def/../../../ghi/jkl/../../../mno";
   "abc/./../def"; "abc//./../def"; "abc/../../././../def"]
 = ["."; "abc"; "abc/def"; "a/b/c"; "."; ".."; "../.."; "../../abc"; "/abc"; "/";
    "abc"; "abc/def"; "a/b/c"; "."; ".."; "../.."; "/abc";
    "abc/def/ghi"; "/abc"; "/abc"; "/abc"; "abc";
    "abc/def"; "/abc/def"; "abc";
    "abc/def/jkl"; "abc/jkl"; "abc"; "."; "/"; ".."; "/"; "../../mno";
    "def"; "def"; "../../def"].
Proof. reflexivity. Qed.

(** * Properties *)

Import GoStrings core.

(** ** Strings and paths *)

Lemma take_drop n s : take n s ++ drop n s = s.
Proof.
  revert s; induction n as [|n IH]; intros [|c s]; cbn; try reflexivity.
  change (String c (take n s ++ drop n s) = String c s).
  f_equal. apply IH.
Qed.

Lemma slice_from_1_None s : slice_from s 1 = None <-> s = "".
Proof.
  unfold slice_from; destruct s; simpl; split; intros H; congruence.
Qed.

Lemma slice_from_1_Some s pa :
  slice_from s 1 = Some pa <-> exists c, s = String c pa.
Proof.
  unfold slice_from; destruct s as [|c s]; simpl; split.
  - discriminate.
  - intros [c H]; discriminate.
  - intros [= <-]; eauto.
  - intros [c' [= -> ->]]; reflexivity.
Qed.

Lemma HasSuffix_drop s suffix :
  HasSuffix s suffix = true ->
  drop (String.length s - String.length suffix) s = suffix.
Proof.
  unfold HasSuffix; intros H.
  apply andb_prop in H as [_ H]. now apply String.eqb_eq in H.
Qed.

(** [TrimSuffix] removes exactly the suffix. *)
Lemma TrimSuffix_app s suffix :
  HasSuffix s suffix = true -> TrimSuffix s suffix ++ suffix = s.
Proof.
  intros H. unfold TrimSuffix. rewrite H.
  rewrite <- (HasSuffix_drop _ _ H) at 2. apply take_drop.
Qed.

Lemma TrimSuffix_id s suffix :
  HasSuffix s suffix = false -> TrimSuffix s suffix = s.
Proof. intros H. unfold TrimSuffix. now rewrite H. Qed.

(** [Base] never returns the empty string. *)
Lemma Base_nonempty p : gopath.Base p <> "".
Proof.
  unfold gopath.Base.
  destruct (String.eqb p "") eqn:E; [discriminate|].
  match goal with |- (if String.eqb ?x "" then _ else _) <> _ =>
    destruct (String.eqb x "") eqn:E'; [discriminate|] end.
  now apply String.eqb_neq in E'.
Qed.

(** ** The handler before it blocks *)

Example ServeHTTP_playlist s w cres h :
  ServeHTTP s w {| RemoteAddr := "c"; Method := "GET"; URLPath := "/cam1/index.m3u8"; Header := h |} cres
  = (Selecting {| Dir := "cam1"; File := "index.m3u8";
                  Req := {| RemoteAddr := "c"; Method := "GET";
                            URLPath := "/cam1/index.m3u8"; Header := h |};
                  W := w; Res := cres |},
     corsHeaders s).
Proof. reflexivity. Qed.

Example ServeHTTP_directory s w cres h :
  ServeHTTP s w {| RemoteAddr := "c"; Method := "GET"; URLPath := "/cam1"; Header := h |} cres
  = (Returned,
     (corsHeaders s ++ [HeaderAdd "Location" "/cam1/"; WriteHeader 301])%list).
Proof. reflexivity. Qed.

Example ServeHTTP_directory_slash s w cres h :
  ServeHTTP s w {| RemoteAddr := "c"; Method := "GET"; URLPath := "/cam1/"; Header := h |} cres
  = (Selecting {| Dir := "cam1"; File := "";
                  Req := {| RemoteAddr := "c"; Method := "GET";
                            URLPath := "/cam1/"; Header := h |};
                  W := w; Res := cres |},
     corsHeaders s).
Proof. reflexivity. Qed.

(** A segment directly under the root: the directory component is ["/"],
    and stripping the separator leaves the empty resource name. *)
Example ServeHTTP_root_segment s w cres h :
  gopath.Dir "/x.ts" = "/" /\
  fst (ServeHTTP s w {| RemoteAddr := "c"; Method := "GET"; URLPath := "//x.ts"; Header := h |} cres)
  = Selecting {| Dir := ""; File := "x.ts";
                 Req := {| RemoteAddr := "c"; Method := "GET";
                           URLPath := "//x.ts"; Header := h |};
                 W := w; Res := cres |}.
Proof. split; reflexivity. Qed.

Lemma sendCalls_cors s : sendCalls (corsHeaders s) = [].
Proof. reflexivity. Qed.

(** Whenever [ServeHTTP] returns without blocking (the 404, 301 and
    preflight answers) it has not offered a request to the loop. *)
Lemma ServeHTTP_returned_bypasses s w r cres :
  fst (ServeHTTP s w r cres) = Returned -> bypassesRegistry (ServeHTTP s w r cres).
Proof.
  intros H. split; [exact H|]. clear H. unfold ServeHTTP.
  destruct (slice_from (URLPath r) 1) as [pa|]; [|reflexivity].
  repeat (match goal with
          | |- context [if ?b then _ else _] => destruct b
          | |- context [let '(_, _) := ?p in _] => destruct p
          end; try reflexivity).
Qed.

(** The handler panics exactly when the URL path is the empty string. *)
Lemma ServeHTTP_panics_iff s w r cres :
  fst (ServeHTTP s w r cres) = Panicked <-> URLPath r = "".
Proof.
  unfold ServeHTTP. split.
  - destruct (slice_from (URLPath r) 1) as [pa|] eqn:E.
    + repeat (match goal with
              | |- context [if ?b then _ else _] => destruct b
              | |- context [let '(_, _) := ?p in _] => destruct p
              end; simpl; try discriminate).
    + intros _. now apply slice_from_1_None.
  - intros H. apply slice_from_1_None in H. now rewrite H.
Qed.

(** Methods other than GET and OPTIONS, on a path that can be sliced. *)
Lemma ServeHTTP_other_method s w r cres pa :
  slice_from (URLPath r) 1 = Some pa ->
  Method r <> MethodGet -> Method r <> MethodOptions ->
  ServeHTTP s w r cres
  = (Returned, (corsHeaders s ++ [WriteHeader StatusNotFound])%list).
Proof.
  intros Hpa Hg Ho. unfold ServeHTTP. rewrite Hpa.
  apply String.eqb_neq in Hg, Ho. now rewrite Hg, Ho.
Qed.

(** GET of the empty or the reserved path. *)
Lemma ServeHTTP_reserved s w r cres pa :
  slice_from (URLPath r) 1 = Some pa ->
  Method r = MethodGet -> pa = "" \/ pa = "favicon.ico" ->
  ServeHTTP s w r cres
  = (Returned, (corsHeaders s ++ [WriteHeader StatusNotFound])%list).
Proof.
  intros Hpa Hg Hr. unfold ServeHTTP. rewrite Hpa, Hg.
  destruct Hr as [-> | ->]; reflexivity.
Qed.

(** OPTIONS on a path that can be sliced. *)
Lemma ServeHTTP_options s w r cres pa :
  slice_from (URLPath r) 1 = Some pa ->
  Method r = MethodOptions ->
  ServeHTTP s w r cres
  = (Returned,
     [ HeaderAdd "Access-Control-Allow-Origin" (hlsAllowOrigin s);
       HeaderAdd "Access-Control-Allow-Credentials" "true";
       HeaderAdd "Access-Control-Allow-Methods" "GET, OPTIONS";
       HeaderAdd "Access-Control-Allow-Headers"
         (Header_Get (Header r) "Access-Control-Request-Headers");
       WriteHeader StatusOK ]).
Proof.
  intros Hpa Ho. unfold ServeHTTP. rewrite Hpa, Ho. reflexivity.
Qed.

(** GET of any other path: what [ServeHTTP] does is decided by
    [splitPath]. *)
Lemma ServeHTTP_get s w r cres pa :
  slice_from (URLPath r) 1 = Some pa ->
  Method r = MethodGet -> pa <> "" -> pa <> "favicon.ico" ->
  ServeHTTP s w r cres
  = let '(dir, fname) := splitPath pa in
    if String.eqb fname "" && negb (HasSuffix dir "/")
    then (Returned,
          (corsHeaders s ++ [HeaderAdd "Location" ("/" ++ dir ++ "/");
                             WriteHeader StatusMovedPermanently])%list)
    else (Selecting {| Dir := TrimSuffix dir "/"; File := fname;
                       Req := r; W := w; Res := cres |},
          corsHeaders s).
Proof.
  intros Hpa Hg H1 H2. unfold ServeHTTP. rewrite Hpa, Hg.
  apply String.eqb_neq in H1, H2.
  rewrite String.eqb_refl, H1, H2. cbn [orb].
  destruct (splitPath pa); reflexivity.
Qed.

Lemma media_suffix_not_reserved pa :
  HasSuffix pa ".ts" || HasSuffix pa ".m3u8" = true ->
  pa <> "" /\ pa <> "favicon.ico".
Proof. intros H; split; intros ->; discriminate H. Qed.

(** C3, as amended.  A GET request whose path after its first character is
    [pa]: if [pa] ends in [.ts] or [.m3u8], the handler builds the request
    message with the directory component of [pa], one trailing separator
    stripped, as resource name and the base name of [pa] as asset; the empty
    path and [favicon.ico] are answered 404; any other path that ends in a
    separator is routed with that separator stripped and no asset; every
    remaining path is answered 301 with [Location] set to ["/" + pa + "/"],
    the handler returning without a request message. *)
Theorem ServeHTTP_get_routing s w r cres pa :
  Method r = MethodGet ->
  slice_from (URLPath r) 1 = Some pa ->
  ServeHTTP s w r cres =
    if HasSuffix pa ".ts" || HasSuffix pa ".m3u8" then
      (Selecting {| Dir := TrimSuffix (gopath.Dir pa) "/"; File := gopath.Base pa;
                    Req := r; W := w; Res := cres |},
       corsHeaders s)
    else if String.eqb pa "" || String.eqb pa "favicon.ico" then
      (Returned, (corsHeaders s ++ [WriteHeader StatusNotFound])%list)
    else if HasSuffix pa "/" then
      (Selecting {| Dir := TrimSuffix pa "/"; File := "";
                    Req := r; W := w; Res := cres |},
       corsHeaders s)
    else
      (Returned,
       (corsHeaders s ++ [HeaderAdd "Location" ("/" ++ pa ++ "/");
                          WriteHeader StatusMovedPermanently])%list).
Proof.
  intros Hg Hpa.
  destruct (HasSuffix pa ".ts" || HasSuffix pa ".m3u8") eqn:Hsuf.
  - destruct (media_suffix_not_reserved _ Hsuf) as [H1 H2].
    rewrite (ServeHTTP_get s w r cres pa Hpa Hg H1 H2).
    unfold splitPath. rewrite Hsuf.
    destruct (String.eqb (gopath.Base pa) "") eqn:E.
    + apply String.eqb_eq in E. now destruct (Base_nonempty pa).
    + reflexivity.
  - destruct (String.eqb pa "" || String.eqb pa "favicon.ico") eqn:Hres.
    + apply (ServeHTTP_reserved s w r cres pa Hpa Hg).
      apply orb_prop in Hres as [H|H]; apply String.eqb_eq in H; auto.
    + apply orb_false_elim in Hres as [H1 H2].
      apply String.eqb_neq in H1, H2.
      rewrite (ServeHTTP_get s w r cres pa Hpa Hg H1 H2).
      unfold splitPath. rewrite Hsuf. cbn [String.eqb andb].
      now destruct (HasSuffix pa "/").
Qed.

Lemma ServeHTTP_get_routing_witness :
  ServeHTTP sampleServer 0 (sampleGet "/cam1/index.m3u8") 7
  = (Selecting (sampleRequest "cam1" "index.m3u8" "/cam1/index.m3u8"),
     corsHeaders sampleServer).
Proof.
  apply (ServeHTTP_get_routing sampleServer 0 (sampleGet "/cam1/index.m3u8")
           7 "cam1/index.m3u8"); reflexivity.
Defined.

(** C3 as stated fails: [/favicon.ico] has no media suffix and no trailing
    separator, and is answered 404, not 301. *)
Lemma ServeHTTP_redirect_not_general :
  ~ (forall s w r cres pa,
       Method r = MethodGet ->
       slice_from (URLPath r) 1 = Some pa ->
       HasSuffix pa ".ts" || HasSuffix pa ".m3u8" = false ->
       HasSuffix pa "/" = false ->
       ServeHTTP s w r cres
       = (Returned,
          (corsHeaders s ++ [HeaderAdd "Location" ("/" ++ pa ++ "/");
                             WriteHeader StatusMovedPermanently])%list)).
Proof.
  intros H.
  specialize (H sampleServer 0 (sampleGet "/favicon.ico") 7 "favicon.ico"
                eq_refl eq_refl eq_refl eq_refl).
  discriminate H.
Qed.

(** C4 at an OPTIONS request whose URL path is empty (the request line
    [OPTIONS http://host HTTP/1.1]): the slice of line 138 is out of range;
    no header is set and no status is written. *)
Theorem ServeHTTP_options_empty_path s w cres addr h :
  ServeHTTP s w {| RemoteAddr := addr; Method := "OPTIONS"; URLPath := ""; Header := h |} cres
  = (Panicked, []).
Proof. reflexivity. Qed.

(** C5 at a CONNECT request, whose URL path is empty (the request line
    [CONNECT host:443 HTTP/1.1]): the slice of line 138 is out of range and
    no 404 is written. *)
Theorem ServeHTTP_connect_empty_path s w cres addr h :
  ServeHTTP s w {| RemoteAddr := addr; Method := "CONNECT"; URLPath := ""; Header := h |} cres
  = (Panicked, []).
Proof. reflexivity. Qed.

(** C10 at a request whose URL path is the empty string, whatever its
    method: [r.URL.Path[1:]] is out of range and the handler panics before
    it does anything else. *)
Theorem ServeHTTP_empty_path_panics s w cres addr m h :
  ServeHTTP s w {| RemoteAddr := addr; Method := m; URLPath := ""; Header := h |} cres
  = (Panicked, []).
Proof. reflexivity. Qed.

(** A path that does not begin with a slash but is not empty is sliced
    in bounds; its first character is dropped whatever it is. *)
Lemma ServeHTTP_first_character_dropped c pa :
  slice_from (String c pa) 1 = Some pa.
Proof. reflexivity. Qed.

(** ** The handler after it has offered its request *)

Lemma resume_app h ins1 ins2 h1 acts1 :
  resume h ins1 = Some (h1, acts1) ->
  resume h (ins1 ++ ins2)
  = match resume h1 ins2 with
    | Some (h2, acts2) => Some (h2, (acts1 ++ acts2)%list)
    | None => None
    end.
Proof.
  revert h h1 acts1. induction ins1 as [|i ins1 IH]; intros h h1 acts1; simpl.
  - intros [= <- <-]. destruct (resume h ins2) as [[h2 acts2]|]; reflexivity.
  - destruct (step h i) as [[h' a]|]; [|discriminate].
    destruct (resume h' ins1) as [[h'' a']|] eqn:E; [|discriminate].
    intros [= <- <-]. rewrite (IH _ _ _ E).
    destruct (resume h'' ins2) as [[h2 acts2]|]; [|reflexivity].
    now rewrite app_assoc.
Qed.

(** C6.  When the value received from the reply channel is the nil reader,
    the handler returns at once: it makes no call on the response writer and
    does not panic.  Over the whole of a routed request the only calls on
    the response writer are the two header additions made before the
    request was offered: no status is written and no body. *)
Theorem ServeHTTP_absent_reply s w r cres hreq acts :
  ServeHTTP s w r cres = (Selecting hreq, acts) ->
  step (Receiving cres) (Reply None) = Some (Returned, [Recv cres]) /\
  resume (Selecting hreq) [Sent; Reply None]
  = Some (Returned, [Send hreq; Recv cres]) /\
  acts = corsHeaders s /\
  statusCalls (acts ++ [Send hreq; Recv cres]) = [] /\
  writeCalls (acts ++ [Send hreq; Recv cres]) = [].
Proof.
  intros H. split; [reflexivity|].
  assert (Res hreq = cres /\ acts = corsHeaders s) as [Hres ->].
  { unfold ServeHTTP in H.
    destruct (slice_from (URLPath r) 1) as [pa|]; [|discriminate].
    repeat (match type of H with
            | context [if ?b then _ else _] => destruct b
            | context [let '(_, _) := ?p in _] => destruct p
            end; try discriminate).
    injection H as <- <-. split; reflexivity. }
  simpl. rewrite Hres. repeat split; reflexivity.
Qed.

Lemma ServeHTTP_absent_reply_witness :
  step (Receiving 7) (Reply None) = Some (Returned, [Recv 7]) /\
  resume (Selecting (sampleRequest "cam1" "" "/cam1/")) [Sent; Reply None]
  = Some (Returned, [Send (sampleRequest "cam1" "" "/cam1/"); Recv 7]) /\
  corsHeaders sampleServer = corsHeaders sampleServer /\
  statusCalls (corsHeaders sampleServer
               ++ [Send (sampleRequest "cam1" "" "/cam1/"); Recv 7]) = [] /\
  writeCalls (corsHeaders sampleServer
              ++ [Send (sampleRequest "cam1" "" "/cam1/"); Recv 7]) = [].
Proof.
  apply (ServeHTTP_absent_reply sampleServer 0 (sampleGet "/cam1/") 7
           (sampleRequest "cam1" "" "/cam1/") (corsHeaders sampleServer)).
  reflexivity.
Defined.

(** ** Streaming *)

Lemma length_makeBuf : List.length makeBuf = bufSize.
Proof. apply repeat_length. Qed.

Lemma Reading_step res buf d err :
  List.length d <= List.length buf ->
  step (Reading res buf) (ReadResult d err)
  = if err then Some (Returned, [Read res])
    else Some (Writing res (d ++ skipn (List.length d) buf)%list (List.length d), [Read res]).
Proof.
  intros H. simpl. apply Nat.leb_le in H. now rewrite H.
Qed.

(** [buf[:n]] after a [Read] that returned [n] is the data just read, and
    the buffer keeps its size. *)
Lemma buf_after_read (d buf : list Byte.byte) :
  List.length d <= List.length buf ->
  firstn (List.length d) (d ++ skipn (List.length d) buf) = d /\
  List.length (d ++ skipn (List.length d) buf) = List.length buf.
Proof.
  intros H. split.
  - apply take_app_length.
  - rewrite length_app, length_skipn. lia.
Qed.

(** One turn of the loop of lines 193-205 with a successful [Read] and
    [Write]. *)
Lemma copy_turn res buf d :
  List.length d <= List.length buf ->
  exists buf', List.length buf' = List.length buf /\
    resume (Reading res buf) [ReadResult d false; WriteResult false]
    = Some (Reading res buf', [Read res; Write d; Flush]).
Proof.
  intros H. destruct (buf_after_read d buf H) as [H1 H2].
  exists (d ++ skipn (List.length d) buf)%list. split; [exact H2|].
  cbn [resume]. rewrite (Reading_step _ _ _ _ H). cbn [step].
  now rewrite H1.
Qed.

Lemma copy_turns res chunks : forall buf,
  Forall (fun d => List.length d <= List.length buf) chunks ->
  exists buf', List.length buf' = List.length buf /\
    resume (Reading res buf) (served chunks)
    = Some (Reading res buf', copied res chunks).
Proof.
  induction chunks as [|d chunks IH]; intros buf Hall.
  - exists buf. split; reflexivity.
  - inversion Hall as [|? ? Hd Hrest]; subst.
    destruct (copy_turn res buf d Hd) as (buf1 & Hlen1 & Hrun1).
    destruct (IH buf1) as (buf2 & Hlen2 & Hrun2).
    { now rewrite Hlen1. }
    exists buf2. split; [congruence|].
    change (served (d :: chunks))
      with ([ReadResult d false; WriteResult false] ++ served chunks)%list.
    rewrite (resume_app _ _ _ _ _ Hrun1), Hrun2. reflexivity.
Qed.

Lemma statusCalls_app a b : statusCalls (a ++ b) = (statusCalls a ++ statusCalls b)%list.
Proof. apply flat_map_app. Qed.

Lemma writeCalls_app a b : writeCalls (a ++ b) = (writeCalls a ++ writeCalls b)%list.
Proof. apply flat_map_app. Qed.

Lemma statusCalls_copied res chunks : statusCalls (copied res chunks) = [].
Proof. induction chunks as [|d chunks IH]; [reflexivity|exact IH]. Qed.

Lemma writeCalls_copied res chunks : writeCalls (copied res chunks) = chunks.
Proof.
  induction chunks as [|d chunks IH]; [reflexivity|].
  cbn. f_equal. exact IH.
Qed.

(** A [Read] cannot hand over more than the buffer holds. *)
Lemma Reading_bounded res d err :
  bufSize < List.length d -> step (Reading res makeBuf) (ReadResult d err) = None.
Proof.
  intros H. cbn [step]. rewrite length_makeBuf.
  apply Nat.leb_gt in H. now rewrite H.
Qed.

(** C7.  A reply that carries a reader starts the copy loop with a buffer
    of 4096 bytes.  For a reader that delivers [chunks] and a client that
    accepts them, the handler calls [Read], [Write] with exactly the bytes
    read, and [Flush], in this order, once per chunk, so every chunk is
    flushed before the next [Read].  If the next [Read] fails the handler
    returns after it; if the next [Write] fails the handler returns after
    it, without a flush.  Nothing is written but the chunks, and no status
    is ever written. *)
Theorem ServeHTTP_streams res cres chunks d :
  Forall (fun c => List.length c <= bufSize) chunks ->
  List.length d <= bufSize ->
  step (Receiving cres) (Reply (Some res)) = Some (Reading res makeBuf, [Recv cres]) /\
  List.length makeBuf = 4096 /\
  resume (Reading res makeBuf) (served chunks ++ [ReadResult d true])
  = Some (Returned, (copied res chunks ++ [Read res])%list) /\
  resume (Reading res makeBuf) (served chunks ++ [ReadResult d false; WriteResult true])
  = Some (Returned, (copied res chunks ++ [Read res; Write d])%list) /\
  writeCalls (copied res chunks ++ [Read res]) = chunks /\
  writeCalls (copied res chunks ++ [Read res; Write d]) = (chunks ++ [d])%list /\
  statusCalls (copied res chunks ++ [Read res]) = [] /\
  statusCalls (copied res chunks ++ [Read res; Write d]) = [].
Proof.
  intros Hall Hd.
  destruct (copy_turns res chunks makeBuf) as (buf & Hlen & Hrun).
  { now rewrite length_makeBuf. }
  rewrite length_makeBuf in Hlen.
  assert (Hd' : List.length d <= List.length buf) by now rewrite Hlen.
  destruct (buf_after_read d buf Hd') as [Hfirst _].
  split; [reflexivity|]. split; [apply length_makeBuf|].
  repeat apply conj.
  - rewrite (resume_app _ _ _ _ _ Hrun). cbn [resume].
    now rewrite (Reading_step _ _ _ _ Hd').
  - rewrite (resume_app _ _ _ _ _ Hrun). cbn [resume].
    rewrite (Reading_step _ _ _ _ Hd'). cbn [step]. now rewrite Hfirst.
  - rewrite writeCalls_app, writeCalls_copied. apply app_nil_r.
  - now rewrite writeCalls_app, writeCalls_copied.
  - now rewrite statusCalls_app, statusCalls_copied.
  - now rewrite statusCalls_app, statusCalls_copied.
Qed.

Lemma ServeHTTP_streams_witness :
  step (Receiving 7) (Reply (Some 1)) = Some (Reading 1 makeBuf, [Recv 7]) /\
  List.length makeBuf = 4096 /\
  resume (Reading 1 makeBuf)
    (served [[Byte.x47; Byte.x40]; [Byte.x11]] ++ [ReadResult [] true])
  = Some (Returned, (copied 1 [[Byte.x47; Byte.x40]; [Byte.x11]] ++ [Read 1])%list) /\
  resume (Reading 1 makeBuf)
    (served [[Byte.x47; Byte.x40]; [Byte.x11]] ++ [ReadResult [] false; WriteResult true])
  = Some (Returned, (copied 1 [[Byte.x47; Byte.x40]; [Byte.x11]] ++ [Read 1; Write []])%list) /\
  writeCalls (copied 1 [[Byte.x47; Byte.x40]; [Byte.x11]] ++ [Read 1])
  = [[Byte.x47; Byte.x40]; [Byte.x11]] /\
  writeCalls (copied 1 [[Byte.x47; Byte.x40]; [Byte.x11]] ++ [Read 1; Write []])
  = ([[Byte.x47; Byte.x40]; [Byte.x11]] ++ [[]])%list /\
  statusCalls (copied 1 [[Byte.x47; Byte.x40]; [Byte.x11]] ++ [Read 1]) = [] /\
  statusCalls (copied 1 [[Byte.x47; Byte.x40]; [Byte.x11]] ++ [Read 1; Write []]) = [].
Proof.
  apply (ServeHTTP_streams 1 7 [[Byte.x47; Byte.x40]; [Byte.x11]] []).
  - repeat constructor; unfold bufSize; simpl; lia.
  - unfold bufSize; simpl; lia.
Defined.

(** ** The registry *)

Lemma loop_inv_start a b c d e : loop_inv (startLoop (newHLSServer a b c d e)).
Proof.
  split; cbn.
  - constructor.
  - intros x H. inversion H.
  - intros name x H. now rewrite lookup_empty in H.
  - intros x [H _]. inversion H.
  - intros r req H. inversion H.
Qed.

Lemma findOrCreateRemuxer_hit name st r :
  remuxers (srv st) !! name = Some r -> findOrCreateRemuxer name st = (r, st).
Proof. intros H. unfold findOrCreateRemuxer. now rewrite H. Qed.

Lemma findOrCreateRemuxer_miss name st :
  remuxers (srv st) !! name = None ->
  exists r,
    findOrCreateRemuxer name st
    = (r, {| srv := set_remuxers (srv st) (<[name := r]> (remuxers (srv st)));
             created := r :: created st;
             forwarded := forwarded st;
             closed := closed st;
             exited := exited st |})
    /\ PathName r = name /\ rid r = List.length (created st).
Proof.
  intros H. unfold findOrCreateRemuxer. rewrite H.
  eexists. split; [reflexivity|]. split; reflexivity.
Qed.

Lemma fresh_not_created st r :
  loop_inv st -> rid r = List.length (created st) -> r ∉ created st.
Proof.
  intros Hinv Hrid Hin. apply (inv_rid _ Hinv) in Hin. lia.
Qed.

(** [findOrCreateRemuxer] keeps the invariant, returns a created remuxer of
    the name asked for, and leaves the logs of the loop alone. *)
Lemma findOrCreateRemuxer_inv name st :
  loop_inv st ->
  let '(r, st') := findOrCreateRemuxer name st in
  loop_inv st' /\ PathName r = name /\ r ∈ created st'
  /\ forwarded st' = forwarded st /\ closed st' = closed st
  /\ exited st' = exited st.
Proof.
  intros Hinv.
  destruct (remuxers (srv st) !! name) as [r|] eqn:E.
  - rewrite (findOrCreateRemuxer_hit _ _ _ E).
    destruct (inv_entry _ Hinv _ _ E) as [Hn Hc].
    split; [exact Hinv|]. repeat split; auto.
  - destruct (findOrCreateRemuxer_miss _ _ E) as (r & -> & Hn & Hrid).
    pose proof (fresh_not_created _ _ Hinv Hrid) as Hfresh.
    split; [|cbn; repeat split; auto; apply elem_of_cons; auto].
    split; cbn.
    + constructor; [exact Hfresh | apply Hinv].
    + intros c [-> | Hc]%elem_of_cons; [lia|].
      apply (inv_rid _ Hinv) in Hc. lia.
    + intros name' c Hl.
      destruct (decide (name = name')) as [<-|Hne].
      * rewrite lookup_insert_eq in Hl. injection Hl as <-.
        split; [exact Hn | apply elem_of_cons; auto].
      * rewrite lookup_insert_ne in Hl by exact Hne.
        destruct (inv_entry _ Hinv _ _ Hl). split; [|apply elem_of_cons]; auto.
    + intros c [[-> | Hc]%elem_of_cons Hncl]; cbn in Hncl.
      * rewrite Hn. apply lookup_insert_eq.
      * assert (Hl : remuxers (srv st) !! PathName c = Some c)
          by (apply (inv_live _ Hinv); split; assumption).
        rewrite lookup_insert_ne; [exact Hl|].
        intros Heq. rewrite <- Heq in Hl. congruence.
    + intros r' req Hf. destruct (inv_forwarded _ Hinv _ _ Hf).
      split; [|apply elem_of_cons]; auto.
Qed.

Lemma run_step_inv st ev : loop_inv st -> loop_inv (run_step st ev).
Proof.
  intros Hinv. destruct ev as [pa|req|c|]; cbn [run_step].
  - destruct (hlsAlwaysRemux (srv st)); [|exact Hinv].
    pose proof (findOrCreateRemuxer_inv (Name pa) st Hinv) as H.
    destruct (findOrCreateRemuxer (Name pa) st) as [r st']. apply H.
  - pose proof (findOrCreateRemuxer_inv (Dir req) st Hinv) as H.
    destruct (findOrCreateRemuxer (Dir req) st) as [r st'].
    destruct H as (Hinv' & Hn & Hc & Hf & Hcl & Hex).
    split; cbn; [apply Hinv' | apply Hinv' | apply Hinv' | | ].
    + intros c [Hc1 Hc2]. apply (inv_live _ Hinv'). split; assumption.
    + intros r' req' [[= -> ->] | Hin]%elem_of_cons; [auto|].
      now apply (inv_forwarded _ Hinv').
  - assert (Hkeep : loop_inv {| srv := srv st; created := created st;
                                forwarded := forwarded st;
                                closed := c :: closed st;
                                exited := exited st |}).
    { split; cbn; [apply Hinv | apply Hinv | apply Hinv | | apply Hinv].
      intros c' [Hc1 Hc2]; cbn in *. apply (inv_live _ Hinv).
      split; [assumption|]. intros Hin. apply Hc2, elem_of_cons. auto. }
    destruct (remuxers (srv st) !! PathName c) as [c2|] eqn:E; [|exact Hkeep].
    destruct (decide (c2 = c)) as [->|Hne]; [|exact Hkeep].
    split; cbn; [apply Hinv | apply Hinv | | | apply Hinv].
    + intros name c' Hl.
      destruct (decide (PathName c = name)) as [<-|Hn].
      * now rewrite lookup_delete_eq in Hl.
      * rewrite lookup_delete_ne in Hl by exact Hn.
        now apply (inv_entry _ Hinv).
    + intros c' [Hc1 Hc2]; cbn in *.
      apply not_elem_of_cons in Hc2 as [Hc2 Hc3].
      assert (Hl : remuxers (srv st) !! PathName c' = Some c')
        by (apply (inv_live _ Hinv); split; assumption).
      rewrite lookup_delete_ne; [exact Hl|].
      intros Heq. rewrite Heq in E. congruence.
  - split; cbn; [apply Hinv | apply Hinv | apply Hinv | | apply Hinv].
    intros c [Hc1 Hc2]. apply (inv_live _ Hinv). split; assumption.
Qed.

Lemma run_inv evs : forall st, loop_inv st -> loop_inv (run st evs).
Proof.
  induction evs as [|ev evs IH]; intros st Hinv; cbn [run]; [exact Hinv|].
  destruct (exited st); [exact Hinv|].
  apply IH, run_step_inv, Hinv.
Qed.

(** C1.  In every state that the loop reaches from a new server, whatever
    the events: [findOrCreateRemuxer] returns the registered remuxer and
    changes nothing when the name has an entry; when it has none it creates
    one remuxer, different from all created before, and registers it under
    the name; two live remuxers of the same name are the same remuxer; and
    requests for the same name that went to live remuxers went to the same
    one. *)
Theorem one_remuxer_per_path a b c d e evs :
  let st := run (startLoop (newHLSServer a b c d e)) evs in
  (forall name r,
     remuxers (srv st) !! name = Some r -> findOrCreateRemuxer name st = (r, st)) /\
  (forall name,
     remuxers (srv st) !! name = None ->
     exists r st',
       findOrCreateRemuxer name st = (r, st') /\
       (r ∉ created st) /\ created st' = r :: created st /\
       remuxers (srv st') = <[name := r]> (remuxers (srv st)) /\
       PathName r = name) /\
  (forall c1 c2,
     live st c1 -> live st c2 -> PathName c1 = PathName c2 -> c1 = c2) /\
  (forall r1 req1 r2 req2,
     (r1, req1) ∈ forwarded st -> (r2, req2) ∈ forwarded st ->
     Dir req1 = Dir req2 -> live st r1 -> live st r2 -> r1 = r2).
Proof.
  intros st.
  assert (Hinv : loop_inv st) by apply run_inv, loop_inv_start.
  assert (Huniq : forall c1 c2,
            live st c1 -> live st c2 -> PathName c1 = PathName c2 -> c1 = c2).
  { intros c1 c2 H1 H2 Hn.
    apply (inv_live _ Hinv) in H1, H2. rewrite Hn in H1. congruence. }
  repeat apply conj.
  - intros name r. apply findOrCreateRemuxer_hit.
  - intros name Hnone.
    destruct (findOrCreateRemuxer_miss _ _ Hnone) as (r & Heq & Hn & Hrid).
    eexists r, _. split; [exact Heq|]. cbn.
    split; [now apply fresh_not_created|]. auto.
  - exact Huniq.
  - intros r1 req1 r2 req2 Hf1 Hf2 Hdir Hl1 Hl2. apply Huniq; auto.
    destruct (inv_forwarded _ Hinv _ _ Hf1) as [-> _].
    destruct (inv_forwarded _ Hinv _ _ Hf2) as [-> _]. exact Hdir.
Qed.

(** With no closure notification among the events, every name has at most
    one remuxer ever created, and each request went to the one of its
    name. *)
Corollary one_remuxer_created a b c d e evs :
  let st := run (startLoop (newHLSServer a b c d e)) evs in
  closed st = [] ->
  forall c1 c2, c1 ∈ created st -> c2 ∈ created st ->
    PathName c1 = PathName c2 -> c1 = c2.
Proof.
  intros st Hcl c1 c2 H1 H2 Hn.
  assert (Hinv : loop_inv st) by apply run_inv, loop_inv_start.
  assert (L1 : live st c1) by (split; [auto | rewrite Hcl; apply not_elem_of_nil]).
  assert (L2 : live st c2) by (split; [auto | rewrite Hcl; apply not_elem_of_nil]).
  apply (inv_live _ Hinv) in L1, L2. rewrite Hn in L1. congruence.
Qed.

(** C2.  A closure notification for [c] deletes the entry for the name of
    [c] when that entry is [c] itself and otherwise leaves the server as it
    is; the map changes if and only if the entry was [c]; in particular an
    entry [b] other than [c] under the name of [c] is still there
    afterwards. *)
Theorem RemuxerClose_removes_only_itself st c :
  srv (run_step st (RemuxerClose c))
  = (if decide (remuxers (srv st) !! PathName c = Some c)
     then set_remuxers (srv st) (delete (PathName c) (remuxers (srv st)))
     else srv st) /\
  (remuxers (srv (run_step st (RemuxerClose c))) <> remuxers (srv st)
   <-> remuxers (srv st) !! PathName c = Some c) /\
  (forall b, remuxers (srv st) !! PathName c = Some b -> b <> c ->
     remuxers (srv (run_step st (RemuxerClose c))) !! PathName c = Some b).
Proof.
  assert (Heq : srv (run_step st (RemuxerClose c))
    = (if decide (remuxers (srv st) !! PathName c = Some c)
       then set_remuxers (srv st) (delete (PathName c) (remuxers (srv st)))
       else srv st)).
  { cbn [run_step].
    destruct (remuxers (srv st) !! PathName c) as [c2|] eqn:E.
    - destruct (decide (c2 = c)) as [->|Hne].
      + now rewrite decide_True.
      + rewrite decide_False; [reflexivity | congruence].
    - now rewrite decide_False. }
  split; [exact Heq|]. rewrite Heq. split.
  - destruct (decide (remuxers (srv st) !! PathName c = Some c)) as [Hc|Hc].
    + split; [auto|]. intros _ Hsame. cbn in Hsame.
      rewrite <- Hsame, lookup_delete_eq in Hc. discriminate.
    + split; [intros Hdiff; now destruct Hdiff | intros; contradiction].
  - intros b0 Hb Hne. rewrite decide_False; [exact Hb | congruence].
Qed.

Lemma one_remuxer_per_path_witness :
  live (run (startLoop sampleServer) sampleEvents) (sampleRemuxer 0 "cam1") /\
  findOrCreateRemuxer "cam1" (run (startLoop sampleServer) sampleEvents)
  = (sampleRemuxer 0 "cam1", run (startLoop sampleServer) sampleEvents) /\
  (exists r st',
     findOrCreateRemuxer "cam2" (run (startLoop sampleServer) sampleEvents) = (r, st') /\
     (r ∉ created (run (startLoop sampleServer) sampleEvents)) /\
     created st' = r :: created (run (startLoop sampleServer) sampleEvents) /\
     remuxers (srv st')
     = <["cam2" := r]> (remuxers (srv (run (startLoop sampleServer) sampleEvents))) /\
     PathName r = "cam2") /\
  sampleRemuxer 0 "cam1" = sampleRemuxer 0 "cam1".
Proof.
  destruct (one_remuxer_per_path false 3 1 "*" 512 sampleEvents) as (H1 & H2 & H3 & H4).
  assert (Hlive : live (run (startLoop sampleServer) sampleEvents) (sampleRemuxer 0 "cam1")).
  { split.
    - apply list_elem_of_here.
    - apply not_elem_of_nil. }
  split; [exact Hlive|].
  split; [apply H1; reflexivity|].
  split; [apply H2; reflexivity|].
  apply (H4 _ (sampleRequest "cam1" "index.m3u8" "/cam1/index.m3u8")
            _ (sampleRequest "cam1" "seg0.ts" "/cam1/seg0.ts")).
  - apply list_elem_of_further, list_elem_of_here.
  - apply list_elem_of_here.
  - reflexivity.
  - exact Hlive.
  - exact Hlive.
Defined.

Lemma RemuxerClose_removes_only_itself_witness :
  remuxers (srv (run_step (run (startLoop sampleServer) sampleReplaced)
                   (RemuxerClose (sampleRemuxer 0 "x")))) !! "x"
  = Some (sampleRemuxer 1 "x").
Proof.
  destruct (RemuxerClose_removes_only_itself
              (run (startLoop sampleServer) sampleReplaced)
              (sampleRemuxer 0 "x")) as (_ & _ & H).
  apply (H (sampleRemuxer 1 "x")).
  - reflexivity.
  - discriminate.
Defined.

(** ** Waiting and cancellation *)

(** C8 as stated fails: a handler that waits for its reply is not released
    by the cancellation of the context. *)
Lemma reply_wait_ignores_cancellation :
  ~ (forall wt : registryWait, wakesOnDone wt = true).
Proof. intros H. specialize (H (AwaitReply 7)). discriminate H. Qed.

(** C8, as amended.  The three sends to the loop (the request of a
    handler, the source-ready event, the closure notification) are each one
    alternative of a [select] whose other alternative is the cancellation of
    the context, on which the caller returns having sent nothing.  The wait
    for the reply is a plain receive: the cancellation does not end it, and
    only a value on the reply channel does. *)
Theorem sends_wait_on_cancellation hreq cres pa c i :
  step (Selecting hreq) Done = Some (Returned, []) /\
  notifier_step (OnPathSourceReady pa) Done = Some (NotifierReturned, []) /\
  notifier_step (OnRemuxerClose c) Done = Some (NotifierReturned, []) /\
  wakesOnDone (SubmitRequest hreq) = true /\
  wakesOnDone (SubmitSourceReady pa) = true /\
  wakesOnDone (SubmitRemuxerClose c) = true /\
  wakesOnDone (AwaitReply cres) = false /\
  step (Receiving cres) i
  = match i with
    | Reply None => Some (Returned, [Recv cres])
    | Reply (Some res) => Some (Reading res makeBuf, [Recv cres])
    | _ => None
    end.
Proof.
  repeat apply conj; reflexivity.
Qed.

(** ** Shutdown *)

Lemma sys_inv_start a b c d e : sys_inv (startSystem (newHLSServer a b c d e)).
Proof.
  split; cbn; try (intros; discriminate).
  - apply loop_inv_start.
  - constructor.
  - intros x H. inversion H.
  - reflexivity.
  - intros H; now destruct H.
  - intros [H|[H|H]]; discriminate.
  - intros [H|H]; discriminate.
Qed.

Lemma findOrCreateRemuxer_created name st :
  exists new,
    created (snd (findOrCreateRemuxer name st)) = (new ++ created st)%list.
Proof.
  unfold findOrCreateRemuxer.
  destruct (remuxers (srv st) !! name) as [r|].
  - now exists [].
  - eexists [_]. reflexivity.
Qed.

(** The loop only ever adds to the remuxers it has created. *)
Lemma run_step_created st ev :
  exists new, created (run_step st ev) = (new ++ created st)%list.
Proof.
  destruct ev as [pa|req|c|]; cbn [run_step].
  - destruct (hlsAlwaysRemux (srv st)); [|now exists []].
    apply findOrCreateRemuxer_created.
  - destruct (findOrCreateRemuxer_created (Dir req) st) as [new H].
    destruct (findOrCreateRemuxer (Dir req) st) as [r st']. now exists new.
  - exists []. destruct (remuxers (srv st) !! PathName c) as [c2|]; [|reflexivity].
    now destruct (decide (c2 = c)).
  - now exists [].
Qed.

Lemma finished_le st :
  sys_inv st -> List.length (finished st) <= List.length (created (loop st)).
Proof.
  intros H. apply NoDup_incl_length; [apply NoDup_ListNoDup, (si_fin_nodup _ H)|].
  intros c Hc. apply list_elem_of_In, (si_fin_sub _ H), list_elem_of_In, Hc.
Qed.

(** While the goroutine of [run] has not exited the counter is positive. *)
Lemma wg_positive st : sys_inv st -> phase st <> Exited -> 0 < wg st.
Proof.
  intros H Hph. pose proof (finished_le _ H) as Hle.
  pose proof (si_wg _ H) as Hwg.
  destruct (decide (phase st = Exited)); [contradiction|]. lia.
Qed.

(** Once the counter is zero, [run] has exited and every remuxer has
    finished. *)
Lemma wg_zero st :
  sys_inv st -> wg st = 0 ->
  phase st = Exited /\ forall c, c ∈ created (loop st) -> c ∈ finished st.
Proof.
  intros H Hz.
  destruct (decide (phase st = Exited)) as [Hph|Hph];
    [|pose proof (wg_positive _ H Hph); lia].
  split; [exact Hph|].
  pose proof (si_wg _ H) as Hwg. rewrite Hz in Hwg.
  destruct (decide (phase st = Exited)); [|contradiction].
  intros c Hc. apply list_elem_of_In.
  apply (NoDup_length_incl (l' := created (loop st))
           (proj1 (NoDup_ListNoDup _) (si_fin_nodup _ H)));
    [lia | | now apply list_elem_of_In].
  intros x Hx. apply list_elem_of_In, (si_fin_sub _ H), list_elem_of_In, Hx.
Qed.

Lemma loop_receive_inv st ev st' :
  sys_inv st -> loop_receive st ev = Some st' -> sys_inv st'.
Proof.
  intros H Hstep. unfold loop_receive in Hstep.
  destruct (phase st) eqn:Hph; try discriminate.
  assert (Hpos : 0 < wg st) by (apply wg_positive; [exact H | congruence]).
  pose proof (si_wg _ H) as Hwg. rewrite Hph in Hwg.
  destruct (decide (InLoop = Exited)); [discriminate|].
  assert (Hev : forall l',
    l' = run_step (loop st) ev ->
    sys_inv {| loop := l'; phase := InLoop; cancelled := cancelled st;
               wg := wg st + workersAdded (loop st) l'; finished := finished st;
               serving := serving st; transportDown := transportDown st;
               hlsServerSet := hlsServerSet st; closers := closers st |}).
  { intros l' ->. destruct (run_step_created (loop st) ev) as [new Hnew].
    split; cbn.
    - apply run_step_inv, (si_loop _ H).
    - apply (si_fin_nodup _ H).
    - intros c Hc. rewrite Hnew. apply elem_of_app. right. now apply (si_fin_sub _ H).
    - unfold workersAdded. rewrite Hnew, length_app.
      destruct (decide (InLoop = Exited)); [discriminate|]. lia.
    - intros _ Hne. now destruct Hne.
    - intros [Hx|[Hx|Hx]]; discriminate.
    - intros [Hx|Hx]; discriminate.
    - apply (si_waiting _ H).
    - intros k Hk. apply (si_returned _ H) in Hk. lia. }
  destruct ev as [pa|req|c|]; try (injection Hstep as <-; now apply Hev).
  destruct (cancelled st) eqn:Hc; [|discriminate].
  injection Hstep as <-. split; cbn.
  - apply (run_step_inv _ CtxDone), (si_loop _ H).
  - apply (si_fin_nodup _ H).
  - apply (si_fin_sub _ H).
  - destruct (decide (AfterLoop = Exited)); [discriminate|]. exact Hwg.
  - reflexivity.
  - intros [Hx|[Hx|Hx]]; discriminate.
  - intros [Hx|Hx]; discriminate.
  - reflexivity.
  - intros k Hk. apply (si_returned _ H) in Hk. lia.
Qed.

Lemma run_advance_inv st st' :
  sys_inv st -> run_advance st = Some st' -> sys_inv st'.
Proof.
  intros H Hstep. unfold run_advance in Hstep.
  pose proof (si_wg _ H) as Hwg.
  destruct (phase st) eqn:Hph; try discriminate;
    destruct (decide (_ = Exited)) as [Hex|Hex] in Hwg; try discriminate Hex;
    try (destruct (0 <? wg st)%nat eqn:Hpos; [apply Nat.ltb_lt in Hpos|discriminate]);
    injection Hstep as <-;
    (split; cbn;
     [ apply (si_loop _ H) | apply (si_fin_nodup _ H) | apply (si_fin_sub _ H)
     | try (destruct (decide (_ = Exited)) as [Hex'|Hex']; try discriminate Hex';
            try (now destruct Hex')); lia
     | try reflexivity; intros; try contradiction;
       try (apply (si_cancel _ H); rewrite Hph; discriminate)
     | try reflexivity;
       intros [Hx|[Hx|Hx]]; try discriminate;
       apply (si_down _ H); rewrite Hph; auto
     | try reflexivity;
       intros [Hx|Hx]; try discriminate;
       apply (si_unset _ H); rewrite Hph; auto
     | try reflexivity; apply (si_waiting _ H)
     | intros k Hk; apply (si_returned _ H) in Hk; lia ]).
Qed.

Lemma workerDone_inv st c st' :
  sys_inv st -> workerDone st c = Some st' -> sys_inv st'.
Proof.
  intros H Hstep. unfold workerDone in Hstep.
  destruct (bool_decide (c ∈ created (loop st))) eqn:Hc; [|discriminate].
  destruct (bool_decide (c ∉ finished st)) eqn:Hf; [|discriminate].
  destruct (0 <? wg st)%nat eqn:Hpos; [|discriminate].
  apply bool_decide_eq_true in Hc, Hf. apply Nat.ltb_lt in Hpos.
  injection Hstep as <-. pose proof (si_wg _ H) as Hwg. split; cbn.
  - apply (si_loop _ H).
  - constructor; [exact Hf | apply (si_fin_nodup _ H)].
  - intros x [-> | Hx]%elem_of_cons; [exact Hc | now apply (si_fin_sub _ H)].
  - lia.
  - apply (si_cancel _ H).
  - apply (si_down _ H).
  - apply (si_unset _ H).
  - apply (si_waiting _ H).
  - intros k Hk. apply (si_returned _ H) in Hk. lia.
Qed.

Lemma close_called_inv st :
  sys_inv st -> sys_inv (set_closers st (cancelled st) (closers st ++ [AtCancel])).
Proof.
  intros H. split; cbn;
    [ apply (si_loop _ H) | apply (si_fin_nodup _ H) | apply (si_fin_sub _ H)
    | apply (si_wg _ H) | apply (si_cancel _ H) | apply (si_down _ H)
    | apply (si_unset _ H) | | ].
  - intros k p [[_ Hk] | [_ <-]]%lookup_snoc_Some Hp.
    + now apply (si_waiting _ H k p).
    + now destruct Hp.
  - intros k [[_ Hk] | [_ Hk]]%lookup_snoc_Some.
    + now apply (si_returned _ H k).
    + discriminate.
Qed.

Lemma close_advance_inv st k st' :
  sys_inv st -> close_advance st k = Some st' -> sys_inv st'.
Proof.
  intros H Hstep. unfold close_advance in Hstep.
  destruct (closers st !! k) as [[| |]|] eqn:Hk; try discriminate.
  - injection Hstep as <-. split; cbn;
      [ apply (si_loop _ H) | apply (si_fin_nodup _ H) | apply (si_fin_sub _ H)
      | apply (si_wg _ H) | reflexivity | apply (si_down _ H)
      | apply (si_unset _ H) | reflexivity | ].
    intros k' [(_ & Hx & _) | [_ Hk']]%list_lookup_insert_Some.
    + discriminate.
    + now apply (si_returned _ H k').
  - destruct (wg st =? 0)%nat eqn:Hz; [|discriminate].
    apply Nat.eqb_eq in Hz. injection Hstep as <-.
    assert (Hcan : cancelled st = true)
      by (apply (si_waiting _ H k AtWait); [exact Hk | discriminate]).
    split; cbn;
      [ apply (si_loop _ H) | apply (si_fin_nodup _ H) | apply (si_fin_sub _ H)
      | apply (si_wg _ H) | apply (si_cancel _ H) | apply (si_down _ H)
      | apply (si_unset _ H) | intros; exact Hcan | intros; exact Hz ].
Qed.

Lemma sys_step_inv st t st' :
  sys_inv st -> sys_step st t = Some st' -> sys_inv st'.
Proof.
  intros H Hstep. destruct t as [ev| |c| |k]; cbn [sys_step] in Hstep.
  - eapply loop_receive_inv; eauto.
  - eapply run_advance_inv; eauto.
  - eapply workerDone_inv; eauto.
  - injection Hstep as <-. now apply close_called_inv.
  - eapply close_advance_inv; eauto.
Qed.

Lemma sys_run_inv ts : forall st st',
  sys_inv st -> sys_run st ts = Some st' -> sys_inv st'.
Proof.
  induction ts as [|t ts IH]; intros st st' H Hrun; cbn [sys_run] in Hrun.
  - now injection Hrun as <-.
  - destruct (sys_step st t) as [st1|] eqn:E; [|discriminate].
    eapply IH; [|exact Hrun]. eapply sys_step_inv; eauto.
Qed.

(** A further call of [close], made when the counter is zero and the
    context is cancelled, goes through both of its steps with no other
    goroutine moving, and changes nothing but the record of the calls. *)
Lemma close_again st :
  cancelled st = true -> wg st = 0 ->
  sys_run st [CloseCalled; CloseAdvances (List.length (closers st));
              CloseAdvances (List.length (closers st))]
  = Some (set_closers st true (closers st ++ [CloseReturned])).
Proof.
  intros Hc Hz. cbn [sys_run sys_step]. unfold close_advance. cbn.
  rewrite list_lookup_middle by reflexivity. cbn.
  rewrite list_lookup_insert_eq by (rewrite length_app; cbn; lia).
  rewrite Hz. cbn. f_equal. unfold set_closers; cbn. f_equal.
  rewrite list_insert_insert_eq.
  replace (List.length (closers st)) with (List.length (closers st) + 0) by lia.
  now rewrite insert_app_r.
Qed.

(** C9.  In every state that the system reaches from a new server:
    a call of [close] that is past its first statement has cancelled the
    context; a call of [close] has returned only if the goroutine of [run]
    has exited and every remuxer created has finished, so that the counter
    of the wait group is zero; [run] has exited only after [hs.Shutdown]
    has returned and the server has been taken off the path manager; and
    once a call has returned, a further call returns at once. *)
Theorem close_waits_for_all a b c d e ts st :
  sys_run (startSystem (newHLSServer a b c d e)) ts = Some st ->
  (forall k p, closers st !! k = Some p -> p <> AtCancel -> cancelled st = true) /\
  (forall k, closers st !! k = Some CloseReturned ->
     phase st = Exited /\ wg st = 0 /\
     (forall r, r ∈ created (loop st) -> r ∈ finished st) /\
     sys_run st [CloseCalled; CloseAdvances (List.length (closers st));
                 CloseAdvances (List.length (closers st))]
     = Some (set_closers st true (closers st ++ [CloseReturned]))) /\
  (phase st = Exited ->
     cancelled st = true /\ transportDown st = true /\ hlsServerSet st = false).
Proof.
  intros Hrun.
  assert (H : sys_inv st) by (eapply sys_run_inv; [apply sys_inv_start | exact Hrun]).
  split; [apply (si_waiting _ H)|]. split.
  - intros k Hk. pose proof (si_returned _ H k Hk) as Hz.
    destruct (wg_zero _ H Hz) as [Hph Hall].
    repeat split; auto.
    apply close_again; [|exact Hz].
    apply (si_waiting _ H k CloseReturned Hk). discriminate.
  - intros Hph. repeat split.
    + apply (si_cancel _ H); rewrite Hph; discriminate.
    + apply (si_down _ H); auto.
    + apply (si_unset _ H); auto.
Qed.

Lemma close_waits_for_all_witness :
  sys_run (startSystem sampleServer) sampleShutdown = Some sampleClosed /\
  closers sampleClosed !! 0 = Some CloseReturned /\
  cancelled sampleClosed = true /\
  phase sampleClosed = Exited /\ wg sampleClosed = 0 /\
  (forall r, r ∈ created (loop sampleClosed) -> r ∈ finished sampleClosed) /\
  sys_run sampleClosed
    [CloseCalled; CloseAdvances (List.length (closers sampleClosed));
     CloseAdvances (List.length (closers sampleClosed))]
  = Some (set_closers sampleClosed true (closers sampleClosed ++ [CloseReturned])) /\
  transportDown sampleClosed = true /\ hlsServerSet sampleClosed = false.
Proof.
  assert (Hrun : sys_run (startSystem sampleServer) sampleShutdown = Some sampleClosed)
    by reflexivity.
  destruct (close_waits_for_all false 3 1 "*" 512 sampleShutdown sampleClosed Hrun)
    as (H1 & H2 & H3).
  destruct (H2 0 eq_refl) as (Hph & Hz & Hall & Hagain).
  destruct (H3 Hph) as (Hc & Hd & Hu).
  split; [exact Hrun|]. split; [reflexivity|].
  split; [apply (H1 0 CloseReturned eq_refl); discriminate|].
  repeat split; assumption.
Defined.

(** * Further properties *)

(** ** The loop *)

(** The loop never changes the configuration of the server. *)
Lemma run_step_config st ev :
  hlsAlwaysRemux (srv (run_step st ev)) = hlsAlwaysRemux (srv st) /\
  hlsSegmentCount (srv (run_step st ev)) = hlsSegmentCount (srv st) /\
  hlsSegmentDuration (srv (run_step st ev)) = hlsSegmentDuration (srv st) /\
  hlsAllowOrigin (srv (run_step st ev)) = hlsAllowOrigin (srv st) /\
  readBufferCount (srv (run_step st ev)) = readBufferCount (srv st).
Proof.
  destruct ev as [pa|req|c|]; cbn [run_step].
  - destruct (hlsAlwaysRemux (srv st)) eqn:E; [|repeat split; congruence].
    unfold findOrCreateRemuxer.
    destruct (remuxers (srv st) !! Name pa); cbn; repeat split; congruence.
  - unfold findOrCreateRemuxer.
    destruct (remuxers (srv st) !! Dir req); cbn; repeat split; congruence.
  - destruct (remuxers (srv st) !! PathName c) as [c2|]; cbn;
      [|repeat split; congruence].
    destruct (decide (c2 = c)); cbn; repeat split; congruence.
  - cbn; repeat split; congruence.
Qed.

Lemma run_config evs : forall st,
  hlsAlwaysRemux (srv (run st evs)) = hlsAlwaysRemux (srv st).
Proof.
  induction evs as [|ev evs IH]; intros st; cbn [run]; [reflexivity|].
  destruct (exited st); [reflexivity|].
  rewrite IH. apply run_step_config.
Qed.

(** X1.  An event leaves the entries of all other names as they are. *)
Theorem run_step_other_names st ev name :
  eventName ev <> Some name ->
  remuxers (srv (run_step st ev)) !! name = remuxers (srv st) !! name.
Proof.
  intros Hne. destruct ev as [pa|req|c|]; cbn [run_step eventName] in *.
  - destruct (hlsAlwaysRemux (srv st)); [|reflexivity].
    unfold findOrCreateRemuxer.
    destruct (remuxers (srv st) !! Name pa); cbn; [reflexivity|].
    apply lookup_insert_ne. congruence.
  - unfold findOrCreateRemuxer.
    destruct (remuxers (srv st) !! Dir req); cbn; [reflexivity|].
    apply lookup_insert_ne. congruence.
  - destruct (remuxers (srv st) !! PathName c) as [c2|]; cbn; [|reflexivity].
    destruct (decide (c2 = c)); cbn; [|reflexivity].
    apply lookup_delete_ne. congruence.
  - reflexivity.
Qed.

Lemma run_step_other_names_witness :
  remuxers (srv (run_step (run (startLoop sampleServer) sampleEvents)
                   (RemuxerClose (sampleRemuxer 0 "cam1")))) !! "cam2"
  = remuxers (srv (run (startLoop sampleServer) sampleEvents)) !! "cam2".
Proof.
  apply (run_step_other_names (run (startLoop sampleServer) sampleEvents)
           (RemuxerClose (sampleRemuxer 0 "cam1")) "cam2").
  discriminate.
Defined.

(** X2.  After the loop has handled a request, the name asked for has an
    entry, and that entry is the remuxer the request was forwarded to; the
    request is the only one forwarded in this iteration. *)
Theorem Request_registers st req :
  exists r,
    forwarded (run_step st (Request req)) = (r, req) :: forwarded st /\
    remuxers (srv (run_step st (Request req))) !! Dir req = Some r.
Proof.
  cbn [run_step]. unfold findOrCreateRemuxer.
  destruct (remuxers (srv st) !! Dir req) as [r|] eqn:E; cbn.
  - exists r. split; [reflexivity | exact E].
  - eexists. split; [reflexivity | apply lookup_insert_eq].
Qed.

(** X3.  A source-ready event registers a remuxer for the name of the path
    when the server always remuxes, and changes nothing at all when it does
    not. *)
Theorem PathSourceReady_eager_or_nothing st pa :
  if hlsAlwaysRemux (srv st)
  then is_Some (remuxers (srv (run_step st (PathSourceReady pa))) !! Name pa)
       /\ forwarded (run_step st (PathSourceReady pa)) = forwarded st
  else run_step st (PathSourceReady pa) = st.
Proof.
  cbn [run_step]. destruct (hlsAlwaysRemux (srv st)); [|reflexivity].
  unfold findOrCreateRemuxer.
  destruct (remuxers (srv st) !! Name pa) as [r|] eqn:E; cbn.
  - split; [rewrite E; eauto | reflexivity].
  - split; [rewrite lookup_insert_eq; eauto | reflexivity].
Qed.

Lemma run_step_forwarded st ev :
  forwarded (run_step st ev)
  = match ev with
    | Request req =>
        (fst (findOrCreateRemuxer (Dir req) st), req) :: forwarded st
    | _ => forwarded st
    end.
Proof.
  destruct ev as [pa|req|c|]; cbn [run_step].
  - destruct (hlsAlwaysRemux (srv st)); [|reflexivity].
    unfold findOrCreateRemuxer. now destruct (remuxers (srv st) !! Name pa).
  - unfold findOrCreateRemuxer. now destruct (remuxers (srv st) !! Dir req).
  - destruct (remuxers (srv st) !! PathName c) as [c2|]; [|reflexivity].
    now destruct (decide (c2 = c)).
  - reflexivity.
Qed.

Lemma run_step_exited st ev :
  exited (run_step st ev)
  = match ev with CtxDone => true | _ => exited st end.
Proof.
  destruct ev as [pa|req|c|]; cbn [run_step].
  - destruct (hlsAlwaysRemux (srv st)); [|reflexivity].
    unfold findOrCreateRemuxer. now destruct (remuxers (srv st) !! Name pa).
  - unfold findOrCreateRemuxer. now destruct (remuxers (srv st) !! Dir req).
  - destruct (remuxers (srv st) !! PathName c) as [c2|]; [|reflexivity].
    now destruct (decide (c2 = c)).
  - reflexivity.
Qed.

Lemma run_exited st evs : exited st = true -> run st evs = st.
Proof. intros H. destruct evs; cbn [run]; [reflexivity | now rewrite H]. Qed.

(** X4.  The loop forwards every request it takes, once and in the order
    taken: none is dropped, repeated or reordered, and none is forwarded
    after the loop has left. *)
Theorem run_forwards_every_request evs : forall st,
  exited st = false ->
  map snd (forwarded (run st evs))
  = (rev (requestsTaken evs) ++ map snd (forwarded st))%list.
Proof.
  induction evs as [|ev evs IH]; intros st Hex; cbn [run]; [reflexivity|].
  rewrite Hex.
  destruct ev as [pa|req|c|].
  - rewrite IH by (rewrite run_step_exited; exact Hex).
    now rewrite run_step_forwarded.
  - rewrite IH by (rewrite run_step_exited; exact Hex).
    rewrite run_step_forwarded. cbn [requestsTaken rev map snd].
    now rewrite <- app_assoc.
  - rewrite IH by (rewrite run_step_exited; exact Hex).
    now rewrite run_step_forwarded.
  - rewrite run_exited by reflexivity. reflexivity.
Qed.

Lemma run_forwards_every_request_witness :
  map snd (forwarded (run (startLoop sampleServer) sampleEvents))
  = (rev (requestsTaken sampleEvents) ++ map snd (forwarded (startLoop sampleServer)))%list.
Proof.
  apply (run_forwards_every_request sampleEvents (startLoop sampleServer)).
  reflexivity.
Defined.

Lemma findOrCreateRemuxer_cases name st :
  (exists r, remuxers (srv st) !! name = Some r /\
             findOrCreateRemuxer name st = (r, st)) \/
  (exists r, remuxers (srv st) !! name = None /\
             PathName r = name /\ rid r = List.length (created st) /\
             findOrCreateRemuxer name st
             = (r, {| srv := set_remuxers (srv st) (<[name := r]> (remuxers (srv st)));
                      created := r :: created st;
                      forwarded := forwarded st;
                      closed := closed st;
                      exited := exited st |})).
Proof.
  destruct (remuxers (srv st) !! name) as [r|] eqn:E.
  - left. exists r. split; [reflexivity|]. now apply findOrCreateRemuxer_hit.
  - right. destruct (findOrCreateRemuxer_miss _ _ E) as (r & H1 & H2 & H3).
    exists r. auto.
Qed.

Lemma run_step_lazily_created st ev :
  lazily_created st -> lazily_created (run_step st ev).
Proof.
  intros [Hlazy Hall]. split.
  { destruct (run_step_config st ev) as [-> _]. exact Hlazy. }
  destruct ev as [pa|req|c|]; cbn [run_step].
  - rewrite Hlazy. exact Hall.
  - destruct (findOrCreateRemuxer_cases (Dir req) st)
      as [(r & E & ->) | (r & E & Hn & Hrid & ->)]; cbn.
    + intros x Hx. destruct (Hall x Hx) as (q & Hq & Hd).
      exists q. split; [now apply list_elem_of_further | exact Hd].
    + intros x [-> | Hx]%elem_of_cons.
      * exists req. split; [apply list_elem_of_here | now rewrite Hn].
      * destruct (Hall x Hx) as (q & Hq & Hd).
        exists q. split; [now apply list_elem_of_further | exact Hd].
  - destruct (remuxers (srv st) !! PathName c) as [c2|]; [|exact Hall].
    destruct (decide (c2 = c)); exact Hall.
  - exact Hall.
Qed.

(** X5.  A server that does not always remux creates remuxers for requests
    only: every remuxer it has created was sent a request for its name,
    whatever source-ready events arrived. *)
Theorem lazy_remuxers_serve_requests b c d e evs x :
  x ∈ created (run (startLoop (newHLSServer false b c d e)) evs) ->
  exists req,
    (x, req) ∈ forwarded (run (startLoop (newHLSServer false b c d e)) evs) /\
    Dir req = PathName x.
Proof.
  assert (H : forall evs st, lazily_created st -> lazily_created (run st evs)).
  { clear. induction evs as [|ev evs IH]; intros st Hst; cbn [run]; [exact Hst|].
    destruct (exited st); [exact Hst|]. apply IH, run_step_lazily_created, Hst. }
  apply (H evs (startLoop (newHLSServer false b c d e))).
  split; [reflexivity|]. intros y Hy. inversion Hy.
Qed.

Lemma lazy_remuxers_serve_requests_witness :
  exists req,
    (sampleRemuxer 0 "cam1", req) ∈ forwarded (run (startLoop sampleServer) sampleEvents) /\
    Dir req = PathName (sampleRemuxer 0 "cam1").
Proof.
  apply (lazy_remuxers_serve_requests 3 1 "*" 512 sampleEvents (sampleRemuxer 0 "cam1")).
  apply list_elem_of_here.
Defined.

(** X6.  The loop creates at most one remuxer for each request, and for each
    source-ready event when the server always remuxes; closure notifications
    create none. *)
Theorem run_creates_at_most_one_each evs : forall st,
  List.length (created (run st evs))
  <= List.length (created st) + lookupsTaken (hlsAlwaysRemux (srv st)) evs.
Proof.
  induction evs as [|ev evs IH]; intros st; cbn [run]; [lia|].
  destruct (exited st); [lia|].
  specialize (IH (run_step st ev)).
  destruct (run_step_config st ev) as [Hcfg _]. rewrite Hcfg in IH.
  destruct ev as [pa|req|c|]; cbn [lookupsTaken].
  - cbn [run_step] in *. destruct (hlsAlwaysRemux (srv st)); [|exact IH].
    destruct (findOrCreateRemuxer_cases (Name pa) st)
      as [(r & E & Hf) | (r & E & Hn & Hrid & Hf)];
      rewrite Hf in *; cbn [snd created List.length] in *; lia.
  - cbn [run_step] in *.
    destruct (findOrCreateRemuxer_cases (Dir req) st)
      as [(r & E & Hf) | (r & E & Hn & Hrid & Hf)];
      rewrite Hf in *; cbn [snd created List.length] in *; lia.
  - cbn [run_step] in *.
    destruct (remuxers (srv st) !! PathName c) as [c2|]; [|exact IH].
    destruct (decide (c2 = c)); exact IH.
  - rewrite run_exited by reflexivity. cbn. lia.
Qed.

Lemma findOrCreateRemuxer_closed_inv name st :
  loop_inv st -> closed_inv st -> closed_inv (snd (findOrCreateRemuxer name st)).
Proof.
  intros Hinv [Hsub Hent].
  destruct (findOrCreateRemuxer_cases name st)
    as [(r & E & ->) | (r & E & Hn & Hrid & ->)]; cbn; [split; assumption|].
  split; cbn.
  - intros c Hc. apply elem_of_cons. right. now apply Hsub.
  - intros name' c Hl. destruct (decide (name = name')) as [<-|Hne].
    + rewrite lookup_insert_eq in Hl. injection Hl as <-.
      intros Hc. apply Hsub in Hc. now apply (fresh_not_created _ _ Hinv Hrid).
    + rewrite lookup_insert_ne in Hl by exact Hne. now apply (Hent name').
Qed.

Lemma run_step_closed_inv st ev :
  loop_inv st -> closed_inv st ->
  match ev with RemuxerClose c => c ∈ created st | _ => True end ->
  closed_inv (run_step st ev).
Proof.
  intros Hinv Hcl Hwf. destruct ev as [pa|req|c|]; cbn [run_step].
  - destruct (hlsAlwaysRemux (srv st)); [|exact Hcl].
    now apply findOrCreateRemuxer_closed_inv.
  - pose proof (findOrCreateRemuxer_closed_inv (Dir req) st Hinv Hcl) as H.
    destruct (findOrCreateRemuxer (Dir req) st) as [r st']. exact H.
  - destruct Hcl as [Hsub Hent].
    assert (Hsub' : forall x, x ∈ c :: closed st -> x ∈ created st).
    { intros x [-> | Hx]%elem_of_cons; [exact Hwf | now apply Hsub]. }
    destruct (remuxers (srv st) !! PathName c) as [c2|] eqn:E.
    + destruct (decide (c2 = c)) as [->|Hne]; split; cbn; try exact Hsub'.
      * intros name x Hl. destruct (decide (PathName c = name)) as [<-|Hn].
        -- now rewrite lookup_delete_eq in Hl.
        -- rewrite lookup_delete_ne in Hl by exact Hn.
           apply not_elem_of_cons. split; [|now apply (Hent name)].
           intros ->. destruct (inv_entry _ Hinv _ _ Hl) as [Hx _]. congruence.
      * intros name x Hl. apply not_elem_of_cons. split; [|now apply (Hent name)].
        intros ->. destruct (inv_entry _ Hinv _ _ Hl) as [<- _]. congruence.
    + split; cbn; [exact Hsub'|].
      intros name x Hl. apply not_elem_of_cons. split; [|now apply (Hent name)].
      intros ->. destruct (inv_entry _ Hinv _ _ Hl) as [<- _]. congruence.
  - exact Hcl.
Qed.

Lemma run_closed_inv evs : forall st,
  loop_inv st -> closed_inv st -> closuresFromCreated st evs ->
  closed_inv (run st evs).
Proof.
  induction evs as [|ev evs IH]; intros st Hinv Hcl Hwf; cbn [run]; [exact Hcl|].
  destruct (exited st) eqn:Hex; [exact Hcl|].
  cbn [closuresFromCreated] in Hwf. destruct Hwf as [Hx | [Hev Hwf]]; [congruence|].
  apply IH; [now apply run_step_inv | now apply run_step_closed_inv | exact Hwf].
Qed.

(** X7.  When every closure notification comes from a remuxer that the loop
    has created, the map holds exactly the live remuxers: [c] is the entry
    for [name] if and only if [c] is of that name, was created, and its
    closure has not been received. *)
Theorem registry_is_the_live_remuxers a b c d e evs name x :
  closuresFromCreated (startLoop (newHLSServer a b c d e)) evs ->
  (remuxers (srv (run (startLoop (newHLSServer a b c d e)) evs)) !! name = Some x
   <-> live (run (startLoop (newHLSServer a b c d e)) evs) x /\ PathName x = name).
Proof.
  intros Hwf.
  assert (Hinv : loop_inv (run (startLoop (newHLSServer a b c d e)) evs))
    by apply run_inv, loop_inv_start.
  assert (Hcl : closed_inv (run (startLoop (newHLSServer a b c d e)) evs)).
  { apply run_closed_inv; [apply loop_inv_start | | exact Hwf].
    split; cbn.
    - intros y Hy. inversion Hy.
    - intros n y Hl. now rewrite lookup_empty in Hl. }
  split.
  - intros Hl. destruct (inv_entry _ Hinv _ _ Hl) as [Hn Hc].
    split; [|exact Hn]. split; [exact Hc | now apply (proj2 Hcl name)].
  - intros [Hlive <-]. now apply (inv_live _ Hinv).
Qed.

Lemma registry_is_the_live_remuxers_witness :
  remuxers (srv (run (startLoop sampleServer) sampleReplaced)) !! "x"
  = Some (sampleRemuxer 1 "x")
  <-> live (run (startLoop sampleServer) sampleReplaced) (sampleRemuxer 1 "x")
      /\ PathName (sampleRemuxer 1 "x") = "x".
Proof.
  apply (registry_is_the_live_remuxers false 3 1 "*" 512 sampleReplaced "x"
           (sampleRemuxer 1 "x")).
  cbn. right. split; [exact I|].
  right. split; [apply list_elem_of_here|].
  right. split; [exact I|]. exact I.
Defined.

(** ** The handler under any behaviour of the reader and the client *)

Lemma resume_cons h i ins :
  resume h (i :: ins)
  = match step h i with
    | None => None
    | Some (h', acts) =>
        match resume h' ins with
        | None => None
        | Some (h'', acts') => Some (h'', (acts ++ acts')%list)
        end
    end.
Proof. reflexivity. Qed.

Lemma resume_Returned ins h acts :
  resume Returned ins = Some (h, acts) -> ins = [] /\ h = Returned /\ acts = [].
Proof.
  destruct ins as [|i ins]; cbn.
  - intros [= <- <-]. auto.
  - destruct i; discriminate.
Qed.

Lemma step_written h i h' acts :
  step h i = Some (h', acts) ->
  (writeCalls acts ++ pendingWrite h' = pendingWrite h ++ readData [i])%list.
Proof.
  destruct h as [hreq|cres|res buf|res buf n| |], i as [| |[r|]|d err|err];
    cbn [step]; try discriminate.
  - intros [= <- <-]. reflexivity.
  - intros [= <- <-]. reflexivity.
  - intros [= <- <-]. reflexivity.
  - intros [= <- <-]. reflexivity.
  - destruct (List.length d <=? List.length buf)%nat; [|discriminate].
    destruct err; intros [= <- <-]; cbn; [reflexivity|].
    now rewrite take_app_length.
  - destruct err; intros [= <- <-]; reflexivity.
Qed.

(** X8.  Whatever the reader returns, whatever the client accepts and
    whenever the context is cancelled, the slices that a handler passes to
    [Write], followed by the one it is still writing, are exactly the data
    of the reads that returned no error, in the order read: nothing is
    written twice, out of order, or without having been read. *)
Theorem handler_writes_what_it_read ins : forall hreq h acts,
  resume (Selecting hreq) ins = Some (h, acts) ->
  (writeCalls acts ++ pendingWrite h)%list = readData ins.
Proof.
  assert (G : forall ins h0 h acts,
    resume h0 ins = Some (h, acts) ->
    (writeCalls acts ++ pendingWrite h = pendingWrite h0 ++ readData ins)%list).
  { clear. induction ins as [|i ins IH]; intros h0 h acts.
    - cbn. intros [= <- <-]. cbn. now rewrite app_nil_r.
    - rewrite resume_cons.
      destruct (step h0 i) as [[h1 a1]|] eqn:E1; [|discriminate].
      destruct (resume h1 ins) as [[h2 a2]|] eqn:E2; [|discriminate].
      intros [= <- <-].
      rewrite writeCalls_app, <- app_assoc, (IH _ _ _ E2), app_assoc.
      rewrite (step_written _ _ _ _ E1), <- app_assoc.
      change (i :: ins) with ([i] ++ ins)%list.
      unfold readData. now rewrite flat_map_app. }
  intros hreq h acts H. apply G in H. exact H.
Qed.

Lemma handler_writes_what_it_read_witness :
  (writeCalls ([Send (sampleRequest "cam1" "seg0.ts" "/cam1/seg0.ts"); Recv 7]
               ++ copied 1 [[Byte.x47; Byte.x40]; [Byte.x11]] ++ [Read 1])
   ++ pendingWrite Returned)%list
  = readData ([Sent; Reply (Some 1)]
              ++ served [[Byte.x47; Byte.x40]; [Byte.x11]]
              ++ [ReadResult [Byte.xff] true]).
Proof.
  apply (handler_writes_what_it_read
           ([Sent; Reply (Some 1)] ++ served [[Byte.x47; Byte.x40]; [Byte.x11]]
            ++ [ReadResult [Byte.xff] true])
           (sampleRequest "cam1" "seg0.ts" "/cam1/seg0.ts") Returned
           ([Send (sampleRequest "cam1" "seg0.ts" "/cam1/seg0.ts"); Recv 7]
            ++ copied 1 [[Byte.x47; Byte.x40]; [Byte.x11]] ++ [Read 1])).
  reflexivity.
Defined.

Lemma step_ok h i h' acts :
  handler_ok h -> step h i = Some (h', acts) ->
  handler_ok h' /\ statusCalls acts = []
  /\ Forall (fun p => List.length p <= bufSize) (writeCalls acts).
Proof.
  intros Hok.
  destruct h as [hreq|cres|res buf|res buf n| |], i as [| |[r|]|d err|err];
    cbn [step]; try discriminate.
  - intros [= <- <-]. cbn. auto.
  - intros [= <- <-]. cbn. auto.
  - intros [= <- <-]. cbn. split; [apply length_makeBuf | auto].
  - intros [= <- <-]. cbn. auto.
  - destruct (List.length d <=? List.length buf)%nat eqn:Hle; [|discriminate].
    apply Nat.leb_le in Hle. cbn in Hok.
    destruct err; intros [= <- <-]; cbn; [auto|].
    split; [|auto]. split; [|lia].
    rewrite length_app, length_skipn. lia.
  - destruct Hok as [Hlen Hn].
    assert (Hp : List.length (firstn n buf) <= bufSize)
      by (rewrite length_firstn; lia).
    destruct err; intros [= <- <-]; cbn; auto.
Qed.

(** X9.  Once a request has been offered to the loop the handler never
    writes a status, and no slice it passes to [Write] is longer than the
    4096 bytes of its buffer, whatever the reader and the client do. *)
Theorem handler_writes_bounded_chunks ins : forall hreq h acts,
  resume (Selecting hreq) ins = Some (h, acts) ->
  statusCalls acts = [] /\
  Forall (fun p => List.length p <= 4096) (writeCalls acts).
Proof.
  assert (G : forall ins h0 h acts,
    handler_ok h0 -> resume h0 ins = Some (h, acts) ->
    statusCalls acts = [] /\
    Forall (fun p => List.length p <= bufSize) (writeCalls acts)).
  { clear. induction ins as [|i ins IH]; intros h0 h acts Hok.
    - cbn. intros [= <- <-]. cbn. auto.
    - rewrite resume_cons.
      destruct (step h0 i) as [[h1 a1]|] eqn:E1; [|discriminate].
      destruct (resume h1 ins) as [[h2 a2]|] eqn:E2; [|discriminate].
      intros [= <- <-].
      destruct (step_ok _ _ _ _ Hok E1) as (Hok1 & Hs1 & Hw1).
      destruct (IH _ _ _ Hok1 E2) as (Hs2 & Hw2).
      rewrite statusCalls_app, writeCalls_app, Hs1, Hs2.
      split; [reflexivity | now apply Forall_app]. }
  intros hreq h acts H. apply (G ins (Selecting hreq) h acts); [exact I | exact H].
Qed.

Lemma handler_writes_bounded_chunks_witness :
  statusCalls ([Send (sampleRequest "cam1" "seg0.ts" "/cam1/seg0.ts"); Recv 7]
               ++ copied 1 [[Byte.x47; Byte.x40]; [Byte.x11]] ++ [Read 1]) = [] /\
  Forall (fun p => List.length p <= 4096)
    (writeCalls ([Send (sampleRequest "cam1" "seg0.ts" "/cam1/seg0.ts"); Recv 7]
                 ++ copied 1 [[Byte.x47; Byte.x40]; [Byte.x11]] ++ [Read 1])).
Proof.
  apply (handler_writes_bounded_chunks
           ([Sent; Reply (Some 1)] ++ served [[Byte.x47; Byte.x40]; [Byte.x11]]
            ++ [ReadResult [Byte.xff] true])
           (sampleRequest "cam1" "seg0.ts" "/cam1/seg0.ts") Returned).
  reflexivity.
Defined.

Lemma step_flushed h i h' acts :
  step h i = Some (h', acts) ->
  (forall rest, flushedAfterWrite (acts ++ rest) = flushedAfterWrite rest) \/
  (h' = Returned /\ exists p, acts = [Write p]).
Proof.
  destruct h as [hreq|cres|res buf|res buf n| |], i as [| |[r|]|d err|err];
    cbn [step]; try discriminate.
  - intros [= <- <-]. now left.
  - intros [= <- <-]. now left.
  - intros [= <- <-]. now left.
  - intros [= <- <-]. now left.
  - destruct (List.length d <=? List.length buf)%nat; [|discriminate].
    destruct err; intros [= <- <-]; now left.
  - destruct err; intros [= <- <-]; [right; eauto | now left].
Qed.

(** X10.  Whatever the reader and the client do, the handler flushes after
    every [Write] that succeeded, before it does anything else, and never
    flushes otherwise; a [Write] without a flush is the last thing a
    handler does. *)
Theorem handler_flushes_every_write ins : forall hreq h acts,
  resume (Selecting hreq) ins = Some (h, acts) ->
  flushedAfterWrite acts = true.
Proof.
  assert (G : forall ins h0 h acts,
    resume h0 ins = Some (h, acts) -> flushedAfterWrite acts = true).
  { clear. induction ins as [|i ins IH]; intros h0 h acts.
    - cbn. now intros [= <- <-].
    - rewrite resume_cons.
      destruct (step h0 i) as [[h1 a1]|] eqn:E1; [|discriminate].
      destruct (resume h1 ins) as [[h2 a2]|] eqn:E2; [|discriminate].
      intros [= <- <-].
      destruct (step_flushed _ _ _ _ E1) as [Hskip | [-> [p ->]]].
      + rewrite Hskip. now apply (IH _ _ _ E2).
      + apply resume_Returned in E2 as (_ & _ & ->). reflexivity. }
  intros hreq h acts H. now apply (G ins (Selecting hreq) h).
Qed.

Lemma handler_flushes_every_write_witness :
  flushedAfterWrite
    ([Send (sampleRequest "cam1" "seg0.ts" "/cam1/seg0.ts"); Recv 7]
     ++ copied 1 [[Byte.x47; Byte.x40]] ++ [Read 1; Write [Byte.x11]])
  = true.
Proof.
  apply (handler_flushes_every_write
           ([Sent; Reply (Some 1)] ++ served [[Byte.x47; Byte.x40]]
            ++ [ReadResult [Byte.x11] false; WriteResult true])
           (sampleRequest "cam1" "seg0.ts" "/cam1/seg0.ts") Returned).
  reflexivity.
Defined.

(** ** Strings *)

Lemma app_cons c s t : String c s ++ t = String c (s ++ t).
Proof. reflexivity. Qed.

Lemma app_empty_l s : "" ++ s = s.
Proof. reflexivity. Qed.

Lemma app_empty_r s : s ++ "" = s.
Proof. induction s as [|c s IH]; [reflexivity|]. now rewrite app_cons, IH. Qed.

Lemma app_assoc_s s t u : (s ++ t) ++ u = s ++ (t ++ u).
Proof. induction s as [|c s IH]; [reflexivity|]. now rewrite !app_cons, IH. Qed.

Lemma length_app_s s t : String.length (s ++ t) = String.length s + String.length t.
Proof. induction s as [|c s IH]; [reflexivity|]. rewrite app_cons. cbn. now rewrite IH. Qed.

Lemma drop_app_length s t : drop (String.length s) (s ++ t) = t.
Proof. induction s as [|c s IH]; [reflexivity|]. rewrite app_cons. exact IH. Qed.


(** A string has the suffix exactly when it is something followed by it. *)
Lemma HasSuffix_app s suffix : HasSuffix (s ++ suffix) suffix = true.
Proof.
  unfold HasSuffix. rewrite length_app_s.
  replace (String.length s + String.length suffix - String.length suffix)
    with (String.length s) by lia.
  rewrite drop_app_length, String.eqb_refl.
  apply andb_true_intro. split; [apply Nat.leb_le; lia | reflexivity].
Qed.

Lemma HasSuffix_iff s suffix :
  HasSuffix s suffix = true <-> exists p, s = p ++ suffix.
Proof.
  split.
  - intros H. exists (TrimSuffix s suffix). symmetry. now apply TrimSuffix_app.
  - intros [p ->]. apply HasSuffix_app.
Qed.


Lemma lastChar_app s c t : lastChar (s ++ String c t) = lastChar (String c t).
Proof.
  induction s as [|a s IH]; [reflexivity|].
  rewrite app_cons. cbn [lastChar].
  destruct (s ++ String c t) eqn:E; [|exact IH].
  destruct s; discriminate E.
Qed.

Lemma HasSuffix_lastChar s c t :
  HasSuffix s (String c t) = true -> lastChar s = lastChar (String c t).
Proof. intros [p ->]%HasSuffix_iff. apply lastChar_app. Qed.


(** What [ServeHTTP] does with a GET, by the form of the path after its
    first character. *)
Lemma ServeHTTP_get_cases s w r cres pa :
  Method r = MethodGet ->
  slice_from (URLPath r) 1 = Some pa ->
  ServeHTTP s w r cres =
    if HasSuffix pa ".ts" || HasSuffix pa ".m3u8" then
      (Selecting {| Dir := TrimSuffix (gopath.Dir pa) "/"; File := gopath.Base pa;
                    Req := r; W := w; Res := cres |},
       corsHeaders s)
    else if String.eqb pa "" || String.eqb pa "favicon.ico" then
      (Returned, (corsHeaders s ++ [WriteHeader StatusNotFound])%list)
    else if HasSuffix pa "/" then
      (Selecting {| Dir := TrimSuffix pa "/"; File := "";
                    Req := r; W := w; Res := cres |},
       corsHeaders s)
    else
      (Returned,
       (corsHeaders s ++ [HeaderAdd "Location" ("/" ++ pa ++ "/");
                          WriteHeader StatusMovedPermanently])%list).
Proof.
  intros Hg Hpa.
  destruct (String.eqb pa "" || String.eqb pa "favicon.ico") eqn:Hres.
  - assert (Hsuf : HasSuffix pa ".ts" || HasSuffix pa ".m3u8" = false).
    { destruct (HasSuffix pa ".ts" || HasSuffix pa ".m3u8") eqn:E; [|reflexivity].
      destruct (media_suffix_not_reserved _ E) as [H1 H2].
      apply String.eqb_neq in H1, H2. rewrite H1, H2 in Hres. discriminate. }
    rewrite Hsuf. apply (ServeHTTP_reserved s w r cres pa Hpa Hg).
    apply orb_prop in Hres as [H|H]; apply String.eqb_eq in H; auto.
  - apply orb_false_elim in Hres as [H1 H2]. apply String.eqb_neq in H1, H2.
    rewrite (ServeHTTP_get s w r cres pa Hpa Hg H1 H2). unfold splitPath.
    destruct (HasSuffix pa ".ts" || HasSuffix pa ".m3u8").
    + pose proof (Base_nonempty pa) as Hb. apply String.eqb_neq in Hb.
      now rewrite Hb.
    + cbn [String.eqb andb]. now destruct (HasSuffix pa "/").
Qed.

(** ** More on the handler before it blocks *)

(** X11.  Only a GET request reaches the registry: when [ServeHTTP] offers
    a request message to the loop, the method is GET, the path after its
    first character is neither empty nor [favicon.ico], the message carries
    the request, the response writer and the reply channel it was called
    with, and the two CORS headers are all that has been done to the
    response. *)
Theorem ServeHTTP_offers_only_get s w r cres hreq acts :
  ServeHTTP s w r cres = (Selecting hreq, acts) ->
  Method r = MethodGet /\
  (exists pa, slice_from (URLPath r) 1 = Some pa /\ pa <> "" /\ pa <> "favicon.ico") /\
  Req hreq = r /\ W hreq = w /\ Res hreq = cres /\
  acts = corsHeaders s.
Proof.
  unfold ServeHTTP.
  destruct (slice_from (URLPath r) 1) as [pa|]; [|discriminate].
  destruct (String.eqb (Method r) MethodGet) eqn:Hg.
  - apply String.eqb_eq in Hg.
    destruct (String.eqb pa "" || String.eqb pa "favicon.ico") eqn:Hres; [discriminate|].
    apply orb_false_elim in Hres as [H1 H2]. apply String.eqb_neq in H1, H2.
    destruct (splitPath pa) as [dir fname].
    destruct (String.eqb fname "" && negb (HasSuffix dir "/")); [discriminate|].
    intros [= <- <-]. cbn. repeat split; eauto.
  - destruct (String.eqb (Method r) MethodOptions); discriminate.
Qed.

Lemma ServeHTTP_offers_only_get_witness :
  Method (sampleGet "/cam1/") = MethodGet /\
  (exists pa, slice_from (URLPath (sampleGet "/cam1/")) 1 = Some pa
              /\ pa <> "" /\ pa <> "favicon.ico") /\
  Req (sampleRequest "cam1" "" "/cam1/") = sampleGet "/cam1/" /\
  W (sampleRequest "cam1" "" "/cam1/") = 0 /\
  Res (sampleRequest "cam1" "" "/cam1/") = 7 /\
  corsHeaders sampleServer = corsHeaders sampleServer.
Proof.
  apply (ServeHTTP_offers_only_get sampleServer 0 (sampleGet "/cam1/") 7
           (sampleRequest "cam1" "" "/cam1/") (corsHeaders sampleServer)).
  reflexivity.
Defined.

(** X12.  Every request with a non-empty URL path gets the two CORS headers
    before anything else, and at most one status, which is 200, 301 or 404;
    no body is written before the handler blocks, and a status is written
    exactly when the handler returns without blocking. *)
Theorem ServeHTTP_headers_then_status s w r cres :
  URLPath r <> "" ->
  exists rest,
    snd (ServeHTTP s w r cres) = (corsHeaders s ++ rest)%list /\
    writeCalls (snd (ServeHTTP s w r cres)) = [] /\
    ((exists hreq, fst (ServeHTTP s w r cres) = Selecting hreq)
       /\ statusCalls (snd (ServeHTTP s w r cres)) = []
     \/ fst (ServeHTTP s w r cres) = Returned
       /\ (statusCalls (snd (ServeHTTP s w r cres)) = [StatusOK]
           \/ statusCalls (snd (ServeHTTP s w r cres)) = [StatusMovedPermanently]
           \/ statusCalls (snd (ServeHTTP s w r cres)) = [StatusNotFound])).
Proof.
  intros Hne. unfold ServeHTTP.
  destruct (slice_from (URLPath r) 1) as [pa|] eqn:E;
    [|now apply slice_from_1_None in E].
  destruct (String.eqb (Method r) MethodGet).
  - destruct (String.eqb pa "" || String.eqb pa "favicon.ico").
    + eexists. split; [reflexivity|]. split; [reflexivity|]. right. cbn. auto.
    + destruct (splitPath pa) as [dir fname].
      destruct (String.eqb fname "" && negb (HasSuffix dir "/")).
      * eexists. split; [reflexivity|]. split; [reflexivity|]. right. cbn. auto.
      * exists []. split; [reflexivity|]. split; [reflexivity|]. left. cbn. eauto.
  - destruct (String.eqb (Method r) MethodOptions).
    + eexists. split; [reflexivity|]. split; [reflexivity|]. right. cbn. auto.
    + eexists. split; [reflexivity|]. split; [reflexivity|]. right. cbn. auto.
Qed.

Lemma ServeHTTP_headers_then_status_witness :
  exists rest,
    snd (ServeHTTP sampleServer 0 (sampleGet "/cam1") 7)
    = (corsHeaders sampleServer ++ rest)%list /\
    writeCalls (snd (ServeHTTP sampleServer 0 (sampleGet "/cam1") 7)) = [] /\
    ((exists hreq, fst (ServeHTTP sampleServer 0 (sampleGet "/cam1") 7) = Selecting hreq)
       /\ statusCalls (snd (ServeHTTP sampleServer 0 (sampleGet "/cam1") 7)) = []
     \/ fst (ServeHTTP sampleServer 0 (sampleGet "/cam1") 7) = Returned
       /\ (statusCalls (snd (ServeHTTP sampleServer 0 (sampleGet "/cam1") 7)) = [StatusOK]
           \/ statusCalls (snd (ServeHTTP sampleServer 0 (sampleGet "/cam1") 7))
              = [StatusMovedPermanently]
           \/ statusCalls (snd (ServeHTTP sampleServer 0 (sampleGet "/cam1") 7))
              = [StatusNotFound])).
Proof.
  apply (ServeHTTP_headers_then_status sampleServer 0 (sampleGet "/cam1") 7).
  discriminate.
Defined.






(** X14.  A routed request without an asset names the path it came from:
    for a GET whose path after its first character [pa] has no media
    suffix, the request message has an empty file name and a resource name
    that, followed by one slash, is [pa] again; only one slash is removed. *)
Theorem ServeHTTP_directory_roundtrip s w r cres pa hreq acts :
  Method r = MethodGet ->
  slice_from (URLPath r) 1 = Some pa ->
  HasSuffix pa ".ts" || HasSuffix pa ".m3u8" = false ->
  ServeHTTP s w r cres = (Selecting hreq, acts) ->
  File hreq = "" /\ Dir hreq ++ "/" = pa.
Proof.
  intros Hg Hpa Hsuf H.
  rewrite (ServeHTTP_get_cases s w r cres pa Hg Hpa), Hsuf in H.
  destruct (String.eqb pa "" || String.eqb pa "favicon.ico"); [discriminate|].
  destruct (HasSuffix pa "/") eqn:Hs; [|discriminate].
  injection H as <- <-. cbn. split; [reflexivity|]. now apply TrimSuffix_app.
Qed.

Lemma ServeHTTP_directory_roundtrip_witness :
  File (sampleRequest "cam1/" "" "/cam1//") = ""
  /\ Dir (sampleRequest "cam1/" "" "/cam1//") ++ "/" = "cam1//".
Proof.
  apply (ServeHTTP_directory_roundtrip sampleServer 0 (sampleGet "/cam1//") 7
           "cam1//" (sampleRequest "cam1/" "" "/cam1//") (corsHeaders sampleServer));
    reflexivity.
Defined.

(** ** The last element of a path *)

Lemma LastIndexByte_hasByte s c :
  (LastIndexByte s c = (-1)%Z /\ hasByte c s = false) \/
  ((0 <= LastIndexByte s c)%Z /\ hasByte c s = true).
Proof.
  induction s as [|a s IH]; cbn [LastIndexByte hasByte]; [now left|].
  destruct IH as [[-> Hn] | [Hi Hy]].
  - cbn. rewrite Hn, orb_false_r. destruct (Ascii.eqb a c); [right|left]; auto with zarith.
  - rewrite Hy, orb_true_r. apply Z.leb_le in Hi as Hi'. rewrite Hi'. right. split; [lia|reflexivity].
Qed.

Lemma lastElement_cons a s :
  lastElement (String a s)
  = if hasByte gopath.slash s then lastElement s
    else if Ascii.eqb a gopath.slash then s else String a s.
Proof.
  unfold lastElement. cbn [LastIndexByte].
  destruct (LastIndexByte_hasByte s gopath.slash) as [[Hi Hn] | [Hi Hy]].
  - rewrite Hi, Hn. cbn. destruct (Ascii.eqb a gopath.slash); reflexivity.
  - rewrite Hy. apply Z.leb_le in Hi as Hi'. rewrite Hi'.
    replace (0 <=? LastIndexByte s gopath.slash + 1)%Z with true
      by (symmetry; apply Z.leb_le; lia).
    replace (Z.to_nat (LastIndexByte s gopath.slash + 1 + 1))
      with (S (Z.to_nat (LastIndexByte s gopath.slash + 1))) by lia.
    reflexivity.
Qed.

Lemma lastElement_no_slash_id s :
  hasByte gopath.slash s = false -> lastElement s = s.
Proof.
  intros H. destruct s as [|a s]; [reflexivity|].
  rewrite lastElement_cons. cbn [hasByte] in H.
  apply orb_false_elim in H as [Ha Hs]. now rewrite Hs, Ha.
Qed.

(** The last element has no slash in it. *)
Lemma lastElement_no_slash s : hasByte gopath.slash (lastElement s) = false.
Proof.
  induction s as [|a s IH]; [reflexivity|].
  rewrite lastElement_cons.
  destruct (hasByte gopath.slash s) eqn:Hs; [exact IH|].
  destruct (Ascii.eqb a gopath.slash) eqn:Ha; [exact Hs|].
  cbn [hasByte]. now rewrite Ha, Hs.
Qed.

Lemma hasByte_app c s t : hasByte c (s ++ t) = hasByte c s || hasByte c t.
Proof.
  induction s as [|a s IH]; [reflexivity|].
  rewrite app_cons. cbn [hasByte]. now rewrite IH, orb_assoc.
Qed.

Lemma lastElement_app s t :
  hasByte gopath.slash t = false -> lastElement (s ++ t) = lastElement s ++ t.
Proof.
  intros Ht. induction s as [|a s IH].
  - rewrite !app_empty_l. now apply lastElement_no_slash_id.
  - rewrite app_cons, !lastElement_cons, hasByte_app, Ht, orb_false_r.
    destruct (hasByte gopath.slash s); [exact IH|].
    destruct (Ascii.eqb a gopath.slash); reflexivity.
Qed.

Lemma lastElement_suffix s : exists p, s = p ++ lastElement s.
Proof.
  induction s as [|a s [p IH]]; [now exists ""|].
  rewrite lastElement_cons.
  destruct (hasByte gopath.slash s).
  - exists (String a p). now rewrite app_cons, <- IH.
  - destruct (Ascii.eqb a gopath.slash).
    + now exists (String a "").
    + now exists "".
Qed.

Lemma lastElement_after_slash s : lastElement (s ++ "/") = "".
Proof.
  induction s as [|a s IH]; [reflexivity|].
  rewrite app_cons, lastElement_cons, hasByte_app. cbn [hasByte].
  change (Ascii.eqb "/" gopath.slash) with true.
  now rewrite orb_true_r.
Qed.

Lemma stripTrailingSlashes_id s c :
  lastChar s = Some c -> c <> gopath.slash -> gopath.stripTrailingSlashes s = s.
Proof.
  intros Hl Hc. induction s as [|a s IH]; [reflexivity|].
  cbn [gopath.stripTrailingSlashes].
  destruct s as [|b s].
  - cbn in *. injection Hl as ->.
    apply Ascii.eqb_neq in Hc. now rewrite Hc.
  - rewrite IH by exact Hl. reflexivity.
Qed.

(** [Base] of a path that does not end in a slash is its last element. *)
Lemma Base_lastElement s t c :
  lastChar (s ++ t) = Some c -> c <> gopath.slash ->
  hasByte gopath.slash t = false -> t <> "" ->
  gopath.Base (s ++ t) = lastElement s ++ t.
Proof.
  intros Hl Hc Ht Hne. unfold gopath.Base.
  destruct (String.eqb (s ++ t) "") eqn:E.
  { apply String.eqb_eq in E. rewrite E in Hl. discriminate. }
  rewrite (stripTrailingSlashes_id _ _ Hl Hc).
  fold (lastElement (s ++ t)). rewrite (lastElement_app _ _ Ht).
  destruct (String.eqb (lastElement s ++ t) "") eqn:E'; [|reflexivity].
  apply String.eqb_eq in E'. apply (f_equal String.length) in E'.
  rewrite length_app_s in E'. destruct t; [contradiction | cbn in E'; lia].
Qed.

Lemma media_suffix_split pa :
  HasSuffix pa ".ts" || HasSuffix pa ".m3u8" = true ->
  exists x suffix c,
    pa = x ++ suffix /\ (suffix = ".ts" \/ suffix = ".m3u8") /\
    lastChar pa = Some c /\ c <> gopath.slash.
Proof.
  intros [H|H]%orb_prop.
  - destruct (proj1 (HasSuffix_iff _ _) H) as [x ->].
    exists x, ".ts", "s"%char. rewrite lastChar_app.
    repeat split; auto; discriminate.
  - destruct (proj1 (HasSuffix_iff _ _) H) as [x ->].
    exists x, ".m3u8", "8"%char. rewrite lastChar_app.
    repeat split; auto; discriminate.
Qed.

(** X15.  The asset of a routed media request is the last element of the
    path: it contains no slash, it ends the path, and it has the media
    suffix of the path. *)
Theorem ServeHTTP_asset_is_last_element s w r cres pa hreq acts :
  Method r = MethodGet ->
  slice_from (URLPath r) 1 = Some pa ->
  HasSuffix pa ".ts" || HasSuffix pa ".m3u8" = true ->
  ServeHTTP s w r cres = (Selecting hreq, acts) ->
  hasByte "/" (File hreq) = false /\
  HasSuffix pa (File hreq) = true /\
  HasSuffix (File hreq) ".ts" || HasSuffix (File hreq) ".m3u8" = true.
Proof.
  intros Hg Hpa Hsuf H.
  rewrite (ServeHTTP_get_cases s w r cres pa Hg Hpa), Hsuf in H.
  injection H as <- <-. cbn [File].
  destruct (media_suffix_split _ Hsuf) as (x & suffix & c & -> & Hsx & Hl & Hc).
  assert (Hns : hasByte gopath.slash suffix = false)
    by (destruct Hsx as [-> | ->]; reflexivity).
  assert (Hne : suffix <> "") by (destruct Hsx as [-> | ->]; discriminate).
  rewrite (Base_lastElement _ _ _ Hl Hc Hns Hne).
  split; [|split].
  - change "/"%char with gopath.slash.
    now rewrite hasByte_app, lastElement_no_slash, Hns.
  - destruct (lastElement_suffix x) as [p Hp].
    apply HasSuffix_iff. exists p. rewrite Hp at 1. apply app_assoc_s.
  - destruct Hsx as [-> | ->]; rewrite HasSuffix_app;
      [reflexivity | apply orb_true_r].
Qed.

Lemma ServeHTTP_asset_is_last_element_witness :
  hasByte "/" (File (sampleRequest "cam1" "index.m3u8" "/cam1/index.m3u8")) = false /\
  HasSuffix "cam1/index.m3u8"
    (File (sampleRequest "cam1" "index.m3u8" "/cam1/index.m3u8")) = true /\
  HasSuffix (File (sampleRequest "cam1" "index.m3u8" "/cam1/index.m3u8")) ".ts"
  || HasSuffix (File (sampleRequest "cam1" "index.m3u8" "/cam1/index.m3u8")) ".m3u8"
  = true.
Proof.
  apply (ServeHTTP_asset_is_last_element sampleServer 0
           (sampleGet "/cam1/index.m3u8") 7 "cam1/index.m3u8"
           (sampleRequest "cam1" "index.m3u8" "/cam1/index.m3u8")
           (corsHeaders sampleServer)); reflexivity.
Defined.

(** ** The directory of a path *)

Lemma Split_fst_cons a s :
  fst (gopath.Split (String a s))
  = if hasByte gopath.slash s then String a (fst (gopath.Split s))
    else if Ascii.eqb a gopath.slash then "/" else "".
Proof.
  unfold gopath.Split. cbn [fst LastIndexByte].
  destruct (LastIndexByte_hasByte s gopath.slash) as [[Hi Hn] | [Hi Hy]].
  - rewrite Hi, Hn. cbn. destruct (Ascii.eqb a gopath.slash) eqn:Ha; [|reflexivity].
    apply Ascii.eqb_eq in Ha. now subst a.
  - rewrite Hy. apply Z.leb_le in Hi as Hi'. rewrite Hi'.
    replace (Z.to_nat (LastIndexByte s gopath.slash + 1 + 1))
      with (S (Z.to_nat (LastIndexByte s gopath.slash + 1))) by lia.
    reflexivity.
Qed.

(** [Split] cuts after the last slash. *)
Lemma Split_fst_app s f :
  hasByte gopath.slash f = false -> fst (gopath.Split (s ++ "/" ++ f)) = s ++ "/".
Proof.
  intros Hf. induction s as [|a s IH].
  - rewrite !app_empty_l. change ("/" ++ f) with (String "/" f).
    rewrite Split_fst_cons, Hf. reflexivity.
  - rewrite !(app_cons a s), Split_fst_cons, IH, hasByte_app.
    change ("/" ++ f) with (String "/" f). cbn [hasByte].
    change (Ascii.eqb "/" gopath.slash) with true. cbn [orb].
    now rewrite orb_true_r.
Qed.

Lemma cleanLoop_copy rooted e rest : forall out dotdot,
  hasByte gopath.slash e = false ->
  gopath.cleanLoop rooted (e ++ String "/" rest) true out dotdot
  = gopath.cleanLoop rooted rest false (out ++ e) dotdot.
Proof.
  induction e as [|c e IH]; intros out dotdot He.
  - rewrite app_empty_l, app_empty_r. reflexivity.
  - cbn [hasByte] in He. apply orb_false_elim in He as [Hc He].
    rewrite app_cons. cbn [gopath.cleanLoop]. rewrite Hc.
    rewrite (IH _ _ He). unfold gopath.append.
    now rewrite app_assoc_s.
Qed.

Lemma plainElement_inv e :
  plainElement e = true ->
  e <> "" /\ hasByte gopath.slash e = false /\ e <> "." /\ e <> "..".
Proof.
  unfold plainElement. intros H.
  repeat (apply andb_prop in H as [H ?]).
  repeat match goal with
         | H : negb _ = true |- _ => apply negb_true_iff in H
         end.
  repeat split; try apply String.eqb_neq; assumption.
Qed.

(** A plain element is copied to the buffer, after a slash when the buffer
    is not empty. *)
Lemma cleanLoop_element e rest out dotdot :
  plainElement e = true ->
  gopath.cleanLoop false (e ++ String "/" rest) false out dotdot
  = gopath.cleanLoop false rest false
      (if (String.length out =? 0)%nat then e else out ++ "/" ++ e) dotdot.
Proof.
  intros (Hne & Hns & Hd1 & Hd2)%plainElement_inv.
  destruct e as [|c e]; [contradiction|].
  cbn [hasByte] in Hns. apply orb_false_elim in Hns as [Hc He].
  assert (Helem :
    gopath.cleanLoop false (e ++ String "/" rest) true
      (gopath.append
         (if (false && negb (String.length out =? 1)%nat)
             || (negb false && negb (String.length out =? 0)%nat)
          then gopath.append out gopath.slash else out) c) dotdot
    = gopath.cleanLoop false rest false
        (if (String.length out =? 0)%nat then String c e
         else out ++ "/" ++ String c e) dotdot).
  { rewrite (cleanLoop_copy _ _ _ _ _ He). f_equal.
    unfold gopath.append. cbn [andb orb negb].
    destruct (String.length out =? 0)%nat eqn:Hw; cbn [negb].
    - destruct out; [reflexivity | discriminate].
    - now rewrite !app_assoc_s. }
  rewrite app_cons. cbn [gopath.cleanLoop]. rewrite Hc.
  destruct (Ascii.eqb c gopath.dot) eqn:Hdot; [|exact Helem].
  apply Ascii.eqb_eq in Hdot. subst c.
  destruct e as [|c1 e].
  { now destruct Hd1. }
  cbn [hasByte] in He. apply orb_false_elim in He as [Hc1 He].
  rewrite app_cons in *. rewrite Hc1.
  destruct (Ascii.eqb c1 gopath.dot) eqn:Hdot1; [|exact Helem].
  apply Ascii.eqb_eq in Hdot1. subst c1.
  destruct e as [|c2 e].
  { now destruct Hd2. }
  cbn [hasByte] in He. apply orb_false_elim in He as [Hc2 He].
  rewrite app_cons in *. rewrite Hc2. exact Helem.
Qed.

Lemma joinElements_snoc done e :
  joinElements (done ++ [e])
  = if (List.length done =? 0)%nat then e else joinElements done ++ "/" ++ e.
Proof.
  induction done as [|d done IH]; [reflexivity|].
  cbn [List.app]. destruct done as [|d' done]; [reflexivity|].
  cbn [List.app joinElements] in *. rewrite IH. cbn.
  now rewrite !app_assoc_s.
Qed.

Lemma joinElements_length done :
  Forall (fun e => plainElement e = true) done ->
  (String.length (joinElements done) =? 0)%nat = (List.length done =? 0)%nat.
Proof.
  intros H. destruct H as [|e done He Hd]; [reflexivity|].
  apply plainElement_inv in He as (Hne & _).
  assert (String.length e <> 0) by (destruct e; [contradiction | discriminate]).
  cbn [List.length joinElements]. destruct done.
  - apply Nat.eqb_neq. assumption.
  - rewrite length_app_s. apply Nat.eqb_neq. lia.
Qed.

(** [Clean] keeps a path of plain elements, each followed by a slash, and
    drops the last slash. *)
Lemma cleanLoop_elements es : forall done dotdot,
  Forall (fun e => plainElement e = true) done ->
  Forall (fun e => plainElement e = true) es ->
  gopath.cleanLoop false (fold_right (fun e p => e ++ String "/" p) "" es)
    false (joinElements done) dotdot
  = joinElements (done ++ es).
Proof.
  induction es as [|e es IH]; intros done dotdot Hdone Hes.
  - cbn. now rewrite app_nil_r.
  - inversion Hes as [|? ? He Hes']; subst. cbn [fold_right].
    rewrite (cleanLoop_element _ _ _ _ He), (joinElements_length _ Hdone).
    rewrite <- joinElements_snoc, (IH (done ++ [e])%list).
    + now rewrite <- app_assoc.
    + apply Forall_app. split; [exact Hdone | now constructor].
    + exact Hes'.
Qed.

Lemma joinElements_slashed es :
  es <> [] ->
  joinElements es ++ "/" = fold_right (fun e p => e ++ String "/" p) "" es.
Proof.
  induction es as [|e es IH]; [contradiction|]. intros _.
  destruct es as [|e' es]; [reflexivity|].
  cbn [joinElements fold_right] in *.
  rewrite <- IH by discriminate. now rewrite !app_assoc_s.
Qed.

Lemma Clean_elements es :
  es <> [] -> Forall (fun e => plainElement e = true) es ->
  gopath.Clean (joinElements es ++ "/") = joinElements es.
Proof.
  intros Hne Hes. rewrite (joinElements_slashed _ Hne).
  destruct es as [|e es]; [contradiction|].
  inversion Hes as [|? ? He Hes']; subst.
  pose proof (cleanLoop_elements (e :: es) [] 0 ltac:(constructor) Hes) as Hloop.
  pose proof (joinElements_length (e :: es) Hes) as Hlen.
  apply plainElement_inv in He as (Hnee & Hns & _).
  destruct e as [|c e]; [contradiction|].
  cbn [hasByte] in Hns. apply orb_false_elim in Hns as [Hc _].
  cbn [fold_right] in *. rewrite app_cons in *.
  unfold gopath.Clean. rewrite Hc.
  change (joinElements []) with "" in Hloop.
  cbn [List.app] in Hloop. rewrite Hloop.
  cbn [List.length Nat.eqb] in Hlen. now rewrite Hlen.
Qed.

Lemma joinElements_lastChar es :
  es <> [] -> Forall (fun e => plainElement e = true) es ->
  exists c, lastChar (joinElements es) = Some c /\ c <> gopath.slash.
Proof.
  induction es as [|e es IH]; [contradiction|]. intros _ Hes.
  inversion Hes as [|? ? He Hes']; subst.
  destruct es as [|e' es].
  - cbn [joinElements]. apply plainElement_inv in He as (Hne & Hns & _).
    clear -Hne Hns. induction e as [|c e IH]; [contradiction|].
    cbn [hasByte] in Hns. apply orb_false_elim in Hns as [Hc Hns].
    destruct e as [|c' e].
    + exists c. split; [reflexivity|]. now apply Ascii.eqb_neq.
    + apply IH; [discriminate | exact Hns].
  - destruct (IH ltac:(discriminate) Hes') as (c & Hl & Hc).
    exists c. split; [|exact Hc].
    change (joinElements (e :: e' :: es))
      with (e ++ "/" ++ joinElements (e' :: es)).
    destruct (joinElements (e' :: es)) as [|a t] eqn:E; [discriminate Hl|].
    change (e ++ "/" ++ String a t) with (e ++ String "/" (String a t)).
    rewrite lastChar_app. exact Hl.
Qed.

(** X16.  A GET of [/<name>/<asset>], where the name is made of one or more
    plain path elements and the asset has no slash and ends in [.ts] or
    [.m3u8], is routed with exactly that name as resource name and that
    asset as file. *)
Theorem ServeHTTP_routes_name_and_asset s w r cres es f :
  Method r = MethodGet ->
  URLPath r = "/" ++ joinElements es ++ "/" ++ f ->
  es <> [] ->
  Forall (fun e => plainElement e = true) es ->
  hasByte "/" f = false ->
  HasSuffix f ".ts" || HasSuffix f ".m3u8" = true ->
  ServeHTTP s w r cres
  = (Selecting {| Dir := joinElements es; File := f; Req := r; W := w; Res := cres |},
     corsHeaders s).
Proof.
  intros Hg Hurl Hne Hes Hf Hsuf.
  assert (Hpa : slice_from (URLPath r) 1 = Some (joinElements es ++ "/" ++ f))
    by (rewrite Hurl; reflexivity).
  rewrite (ServeHTTP_get_cases s w r cres _ Hg Hpa).
  destruct (media_suffix_split _ Hsuf) as (y & suffix & c & -> & Hsx & Hl & Hc).
  assert (Hns : hasByte gopath.slash suffix = false)
    by (destruct Hsx as [-> | ->]; reflexivity).
  assert (Hnes : suffix <> "") by (destruct Hsx as [-> | ->]; discriminate).
  assert (Hmedia : HasSuffix (joinElements es ++ "/" ++ y ++ suffix) ".ts"
                   || HasSuffix (joinElements es ++ "/" ++ y ++ suffix) ".m3u8" = true).
  { rewrite <- !app_assoc_s.
    destruct Hsx as [-> | ->]; rewrite HasSuffix_app; [reflexivity | apply orb_true_r]. }
  rewrite Hmedia.
  assert (HD : TrimSuffix (gopath.Dir (joinElements es ++ "/" ++ y ++ suffix)) "/"
               = joinElements es).
  { unfold gopath.Dir. rewrite (Split_fst_app _ _ Hf), (Clean_elements _ Hne Hes).
    apply TrimSuffix_id.
    destruct (HasSuffix (joinElements es) "/") eqn:E; [|reflexivity].
    apply HasSuffix_lastChar in E.
    destruct (joinElements_lastChar _ Hne Hes) as (c' & Hl' & Hc').
    rewrite Hl' in E. injection E as ->. now destruct Hc'. }
  assert (HB : gopath.Base (joinElements es ++ "/" ++ y ++ suffix) = y ++ suffix).
  { assert (Hy : hasByte gopath.slash y = false).
    { change "/"%char with gopath.slash in Hf.
      rewrite hasByte_app in Hf. now apply orb_false_elim in Hf as [? _]. }
    replace (joinElements es ++ "/" ++ y ++ suffix)
      with (((joinElements es ++ "/") ++ y) ++ suffix)
      by now rewrite !app_assoc_s.
    rewrite (Base_lastElement _ suffix c); auto.
    + now rewrite (lastElement_app _ _ Hy), lastElement_after_slash.
    + destruct suffix as [|a t]; [contradiction|].
      rewrite lastChar_app in Hl. now rewrite lastChar_app. }
  now rewrite HD, HB.
Qed.

Lemma ServeHTTP_routes_name_and_asset_witness :
  ServeHTTP sampleServer 0 (sampleGet "/live/cam1/seg0.ts") 7
  = (Selecting {| Dir := joinElements ["live"; "cam1"]; File := "seg0.ts";
                  Req := sampleGet "/live/cam1/seg0.ts"; W := 0; Res := 7 |},
     corsHeaders sampleServer).
Proof.
  apply (ServeHTTP_routes_name_and_asset sampleServer 0
           (sampleGet "/live/cam1/seg0.ts") 7 ["live"; "cam1"] "seg0.ts").
  - reflexivity.
  - reflexivity.
  - discriminate.
  - repeat constructor.
  - reflexivity.
  - reflexivity.
Defined.

(** ** More on shutdown *)


Lemma sys_step_after_loop st t st' :
  phase st <> Starting -> phase st <> InLoop ->
  sys_step st t = Some st' ->
  loop st' = loop st /\ phase st' <> Starting /\ phase st' <> InLoop.
Proof.
  intros H1 H2. destruct t as [ev| |c| |k]; cbn [sys_step].
  - unfold loop_receive. destruct (phase st); try discriminate; contradiction.
  - unfold run_advance.
    destruct (phase st) eqn:Hph; try discriminate; try contradiction;
      try (destruct (0 <? wg st)%nat; [|discriminate]);
      intros [= <-]; cbn; repeat split; discriminate.
  - unfold workerDone.
    destruct (_ && _ && _); [|discriminate]. intros [= <-]. cbn. auto.
  - intros [= <-]. cbn. auto.
  - unfold close_advance.
    destruct (closers st !! k) as [[| |]|]; try discriminate.
    + intros [= <-]. cbn. auto.
    + destruct (wg st =? 0)%nat; [|discriminate]. intros [= <-]. cbn. auto.
Qed.

(** X17.  Once the goroutine of [run] has left its loop, the registry is
    frozen: whatever happens afterwards, no remuxer is created, no request
    is forwarded and no entry of the map changes, and the loop is never
    entered again. *)
Theorem registry_frozen_after_loop ts : forall st st',
  phase st <> Starting -> phase st <> InLoop ->
  sys_run st ts = Some st' ->
  loop st' = loop st /\ phase st' <> Starting /\ phase st' <> InLoop.
Proof.
  induction ts as [|t ts IH]; intros st st' H1 H2; cbn [sys_run].
  - intros [= <-]. auto.
  - destruct (sys_step st t) as [st1|] eqn:E; [|discriminate].
    destruct (sys_step_after_loop _ _ _ H1 H2 E) as (Hl & H1' & H2').
    intros Hrun. destruct (IH _ _ H1' H2' Hrun) as (Hl' & ? & ?).
    split; [congruence | auto].
Qed.

Lemma registry_frozen_after_loop_witness :
  loop sampleClosed
  = loop (default (startSystem sampleServer)
            (sys_run (startSystem sampleServer) (firstn 5 sampleShutdown)))
  /\ phase sampleClosed <> Starting /\ phase sampleClosed <> InLoop.
Proof.
  apply (registry_frozen_after_loop (skipn 5 sampleShutdown)
           (default (startSystem sampleServer)
              (sys_run (startSystem sampleServer) (firstn 5 sampleShutdown)))
           sampleClosed).
  - discriminate.
  - discriminate.
  - reflexivity.
Defined.









(** X19.  [ServeHTTP] panics exactly when the URL path is the empty string.
    A path that is not empty is sliced in bounds whatever its first
    character, and when the handler does panic it has done nothing to the
    response. *)
Theorem ServeHTTP_panics_only_on_empty_path s w r cres :
  (fst (ServeHTTP s w r cres) = Panicked <-> URLPath r = "") /\
  (fst (ServeHTTP s w r cres) = Panicked -> snd (ServeHTTP s w r cres) = []).
Proof.
  split; [apply ServeHTTP_panics_iff|].
  intros H. apply ServeHTTP_panics_iff, slice_from_1_None in H.
  unfold ServeHTTP. now rewrite H.
Qed.

Lemma ServeHTTP_panics_only_on_empty_path_witness :
  (fst (ServeHTTP sampleServer 0 (sampleGet "") 7) = Panicked
   <-> URLPath (sampleGet "") = "") /\
  snd (ServeHTTP sampleServer 0 (sampleGet "") 7) = [].
Proof.
  destruct (ServeHTTP_panics_only_on_empty_path sampleServer 0 (sampleGet "") 7)
    as [H1 H2].
  split; [exact H1 | apply H2; reflexivity].
Defined.
